(** * The API gateway of [api_gateway/gateway/app.py]

    A shallow embedding of the gateway's request pipeline: the API-key
    check, the sliding-window rate limiter, the cache-key derivation, the
    backend selection, the request forwarder and the dispatcher, followed
    by the properties of the gateway that its specification states.

    Python values are modelled as follows.  [int] is [Z] (unbounded).
    [str] is [string], read as a sequence of code points below 256.
    [bytes] is [list Byte.byte].  The dictionary [rate_limits] is a
    [gmap string (list Z)].  A raised exception is the [Raise] case of
    [res]; state that was mutated before the exception stays mutated. *)

From Stdlib Require Import ZArith List String Ascii Bool Lia Permutation Sorted.
From stdpp Require Import base gmap list strings pretty.

Set Warnings "-register-all".

Local Open Scope string_scope.
Local Open Scope list_scope.
Local Open Scope Z_scope.

(** ** Python values *)

Inductive exn : Type :=
  | AttributeError
  | ValueError
  | TypeError
  | JSONDecodeError
  | UnicodeDecodeError
  | RecursionError
  | RequestException (msg : string).

Inductive res (A : Type) : Type :=
  | Ok (a : A)
  | Raise (e : exn).
Arguments Ok {A} a.
Arguments Raise {A} e.

Definition res_bind {A B : Type} (m : res A) (k : A → res B) : res B :=
  match m with
  | Ok a => k a
  | Raise e => Raise e
  end.

Notation "x ←! m ; k" := (res_bind m (λ x, k))
  (at level 100, m at next level, right associativity).

(** What [json.loads] returns and what [jsonify] takes.  A float is kept
    as mantissa and binary exponent. *)
Inductive json : Type :=
  | JNull
  | JBool (b : bool)
  | JInt (z : Z)
  | JFloat (m e : Z)
  | JStr (s : string)
  | JList (l : list json)
  | JDict (kv : list (string * json)).

(** Python truthiness, as [if cached_response:] tests it. *)
Definition truthy (j : json) : bool :=
  match j with
  | JNull => false
  | JBool b => b
  | JInt z => negb (z =? 0)
  | JFloat m _ => negb (m =? 0)
  | JStr s => negb (String.eqb s "")
  | JList l => match l with [] => false | _ => true end
  | JDict kv => match kv with [] => false | _ => true end
  end.

Definition bytes : Type := list Byte.byte.

(** [str(n)] for an [int]. *)
Definition str (z : Z) : string := pretty z.

(** ** HTTP headers

    Werkzeug's [Headers] and requests' [CaseInsensitiveDict]: an ordered
    list of pairs, looked up by name without regard to case; [get] gives
    the first match. *)

Definition lower_ascii (c : ascii) : ascii :=
  let n := nat_of_ascii c in
  if (65 <=? n)%nat && (n <=? 90)%nat then ascii_of_nat (n + 32) else c.

Fixpoint lower (s : string) : string :=
  match s with
  | EmptyString => EmptyString
  | String c r => String (lower_ascii c) (lower r)
  end.

Definition Headers : Type := list (string * string).

Definition same_name (a b : string) : bool := String.eqb (lower a) (lower b).

Fixpoint headers_get (hs : Headers) (name : string) : option string :=
  match hs with
  | [] => None
  | (k, v) :: r => if same_name k name then Some v else headers_get r name
  end.

(** [hs[name] = value]: every entry of that name goes, the new one takes
    the place of the first (or the end of the list). *)
Definition headers_remove (hs : Headers) (name : string) : Headers :=
  List.filter (λ kv, negb (same_name (fst kv) name)) hs.

Fixpoint headers_set (hs : Headers) (name value : string) : Headers :=
  match hs with
  | [] => [(name, value)]
  | (k, v) :: r =>
      if same_name k name then (name, value) :: headers_remove r name
      else (k, v) :: headers_set r name value
  end.

(** ** Requests and responses *)

Record Request : Type := mkRequest {
  req_method : string;
  req_headers : Headers;
  remote_addr : string;
  query_string : string;
  args : list (string * string);
  get_json : option json
}.

Inductive body : Type :=
  | BJson (j : json)
  | BRaw (b : bytes).

Record Response : Type := mkResponse {
  data : body;
  status_code : Z;
  headers : Headers
}.

(** [jsonify(x)]: a 200 response of type application/json. *)
Definition jsonify (j : json) : Response :=
  {| data := BJson j; status_code := 200;
     headers := [("Content-Type", "application/json")] |}.

Definition set_header (r : Response) (name value : string) : Response :=
  {| data := data r; status_code := status_code r;
     headers := headers_set (headers r) name value |}.

(** What a view function returns: a response object or a tuple. *)
Inductive view_rv : Type :=
  | RvResponse (r : Response)
  | RvTuple2 (r : Response) (status : Z).

(** Flask's conversion of the view's return value into the response that
    is sent: a tuple's status replaces the object's. *)
Definition make_response (rv : view_rv) : Response :=
  match rv with
  | RvResponse r => r
  | RvTuple2 r s => {| data := data r; status_code := s; headers := headers r |}
  end.

(** ** Configuration: [class Config] *)

Record ConfigT : Type := mkConfig {
  API_KEY : string;
  CACHE_ENABLED : bool;
  CACHE_TIMEOUT : Z;
  RATE_LIMIT_ENABLED : bool;
  RATE_LIMIT_WINDOW : Z;
  RATE_LIMIT_MAX_REQUESTS : Z;
  SERVICES : list (string * list string)
}.

(** The class as it is written, with the default of the environment
    variable [API_KEY]. *)
Definition Config : ConfigT :=
  {| API_KEY := "test-api-key";
     CACHE_ENABLED := true;
     CACHE_TIMEOUT := 300;
     RATE_LIMIT_ENABLED := true;
     RATE_LIMIT_WINDOW := 60;
     RATE_LIMIT_MAX_REQUESTS := 100;
     SERVICES :=
       [("user_service", ["http://localhost:8001"; "http://localhost:8002"]);
        ("product_service", ["http://localhost:8011"; "http://localhost:8012"]);
        ("order_service", ["http://localhost:8021"; "http://localhost:8022"])] |}.

(** [SERVICES[service]] and [service in SERVICES]. *)
Fixpoint services_get (ss : list (string * list string)) (service : string)
  : option (list string) :=
  match ss with
  | [] => None
  | (k, urls) :: r => if String.eqb k service then Some urls else services_get r service
  end.

(** ** The rate limiter: the locked block of [rate_limit] *)

(** [[ts for ts in l if ts > window_start]] *)
Definition purge (window_start : Z) (l : list Z) : list Z :=
  filter (λ ts, window_start < ts) l.

(** [min(l)]; [None] is the [ValueError] of an empty sequence. *)
Definition py_min (l : list Z) : option Z :=
  match l with
  | [] => None
  | x :: r => Some (fold_left Z.min r x)
  end.

Inductive rl_decision : Type :=
  | RlReject (retry_after : Z)
  | RlAccept (request_count : Z).

Definition rate_limit_check (cfg : ConfigT) (rate_limits : gmap string (list Z))
    (client_id : string) (now : Z) : gmap string (list Z) * res rl_decision :=
  let window_start := now - RATE_LIMIT_WINDOW cfg in
  let '(rate_limits, request_count) :=
    match rate_limits !! client_id with
    | Some l =>
        let l' := purge window_start l in
        (<[client_id := l']> rate_limits, Z.of_nat (length l'))
    | None => (<[client_id := []]> rate_limits, 0)
    end in
  if RATE_LIMIT_MAX_REQUESTS cfg <=? request_count then
    match py_min (rate_limits !!! client_id) with
    | Some m =>
        (rate_limits, Ok (RlReject (RATE_LIMIT_WINDOW cfg - (now - m))))
    | None => (rate_limits, Raise ValueError)
    end
  else
    (<[client_id := (rate_limits !!! client_id) ++ [now]]> rate_limits,
     Ok (RlAccept request_count)).

(** The 429 body. *)
Definition rate_limit_exceeded (cfg : ConfigT) (retry_after : Z) : json :=
  JDict [("error", JStr "Rate limit exceeded");
         ("limit", JInt (RATE_LIMIT_MAX_REQUESTS cfg));
         ("window", JInt (RATE_LIMIT_WINDOW cfg));
         ("retry_after", JInt retry_after)].

(** ** [hashlib.md5] (RFC 1321) on 32-bit words kept in [Z] *)

Module MD5.

Definition w32 (x : Z) : Z := Z.land x 4294967295.

Definition rotl (x c : Z) : Z :=
  w32 (Z.lor (Z.shiftl x c) (Z.shiftr x (32 - c))).

Definition not32 (x : Z) : Z := Z.lxor x 4294967295.

Definition S_table : list Z :=
  [7; 12; 17; 22; 7; 12; 17; 22; 7; 12; 17; 22; 7; 12; 17; 22;
   5; 9; 14; 20; 5; 9; 14; 20; 5; 9; 14; 20; 5; 9; 14; 20;
   4; 11; 16; 23; 4; 11; 16; 23; 4; 11; 16; 23; 4; 11; 16; 23;
   6; 10; 15; 21; 6; 10; 15; 21; 6; 10; 15; 21; 6; 10; 15; 21].

(** [floor (2^32 * abs (sin (i + 1)))] for [i] from 0 to 63 *)
Definition K_table : list Z :=
  [3614090360; 3905402710; 606105819; 3250441966; 4118548399; 1200080426;
   2821735955; 4249261313; 1770035416; 2336552879; 4294925233; 2304563134;
   1804603682; 4254626195; 2792965006; 1236535329; 4129170786; 3225465664;
   643717713; 3921069994; 3593408605; 38016083; 3634488961; 3889429448;
   568446438; 3275163606; 4107603335; 1163531501; 2850285829; 4243563512;
   1735328473; 2368359562; 4294588738; 2272392833; 1839030562; 4259657740;
   2763975236; 1272893353; 4139469664; 3200236656; 681279174; 3936430074;
   3572445317; 76029189; 3654602809; 3873151461; 530742520; 3299628645;
   4096336452; 1126891415; 2878612391; 4237533241; 1700485571; 2399980690;
   4293915773; 2240044497; 1873313359; 4264355552; 2734768916; 1309151649;
   4149444226; 3174756917; 718787259; 3951481745].

Definition word_state : Type := (Z * Z * Z * Z)%type.

Definition round (M : list Z) (st : word_state) (i : nat) : word_state :=
  let '(A, B, C, D) := st in
  let iz := Z.of_nat i in
  let '(F, g) :=
    if (i <? 16)%nat then
      (Z.lor (Z.land B C) (Z.land (not32 B) D), iz)
    else if (i <? 32)%nat then
      (Z.lor (Z.land D B) (Z.land (not32 D) C), (5 * iz + 1) mod 16)
    else if (i <? 48)%nat then
      (Z.lxor (Z.lxor B C) D, (3 * iz + 5) mod 16)
    else
      (Z.lxor C (Z.lor B (not32 D)), (7 * iz) mod 16) in
  let F := w32 (F + A + nth i K_table 0 + nth (Z.to_nat g) M 0) in
  (D, w32 (B + rotl F (nth i S_table 0)), B, C).

Fixpoint le_word (bs : list Z) (n : nat) : Z :=
  match n, bs with
  | S n', b :: r => b + 256 * le_word r n'
  | _, _ => 0
  end.

Fixpoint words (bs : list Z) (n : nat) : list Z :=
  match n with
  | O => []
  | S n' => le_word bs 4 :: words (skipn 4 bs) n'
  end.

Definition block (st : word_state) (bs : list Z) : word_state :=
  let M := words bs 16 in
  let '(A, B, C, D) := st in
  let '(A', B', C', D') := fold_left (round M) (seq 0 64) st in
  (w32 (A + A'), w32 (B + B'), w32 (C + C'), w32 (D + D')).

Fixpoint blocks (n : nat) (st : word_state) (bs : list Z) : word_state :=
  match n with
  | O => st
  | S n' => blocks n' (block st (firstn 64 bs)) (skipn 64 bs)
  end.

Fixpoint le_bytes (n : nat) (x : Z) : list Z :=
  match n with
  | O => []
  | S n' => x mod 256 :: le_bytes n' (x / 256)
  end.

Definition pad (msg : list Z) : list Z :=
  let len := Z.of_nat (length msg) in
  let zeros := Z.to_nat ((55 - len) mod 64) in
  msg ++ [128] ++ repeat 0 zeros ++ le_bytes 8 ((8 * len) mod 2 ^ 64).

Definition digest (msg : list Z) : list Z :=
  let p := pad msg in
  let '(A, B, C, D) :=
    blocks (length p / 64) (1732584193, 4023233417, 2562383102, 271733878) p in
  le_bytes 4 A ++ le_bytes 4 B ++ le_bytes 4 C ++ le_bytes 4 D.

Definition hex_digit (d : Z) : ascii :=
  if d <? 10 then ascii_of_nat (Z.to_nat (48 + d))
  else ascii_of_nat (Z.to_nat (87 + d)).

Fixpoint hex (bs : list Z) : string :=
  match bs with
  | [] => EmptyString
  | b :: r => String (hex_digit (b / 16)) (String (hex_digit (b mod 16)) (hex r))
  end.

Definition hexdigest (msg : list Z) : string := hex (digest msg).

End MD5.

(** ** [json.dumps] of a list of strings, and [str.encode] *)

Definition dquote : ascii := ascii_of_nat 34.
Definition backslash : ascii := ascii_of_nat 92.

(** The escape of one character under [ensure_ascii]: everything outside
    [' '..'~'], the quote and the backslash are escaped. *)
Definition json_escape_char (c : ascii) : string :=
  let n := Z.of_nat (nat_of_ascii c) in
  if n =? 34 then String backslash (String dquote EmptyString)
  else if n =? 92 then String backslash (String backslash EmptyString)
  else if n =? 10 then String backslash "n"
  else if n =? 13 then String backslash "r"
  else if n =? 9 then String backslash "t"
  else if n =? 12 then String backslash "f"
  else if n =? 8 then String backslash "b"
  else if (n <? 32) || (126 <? n) then
    String backslash
      ("u00" +:+ String (MD5.hex_digit (n / 16)) (String (MD5.hex_digit (n mod 16)) EmptyString))
  else String c EmptyString.

Fixpoint json_escape (s : string) : string :=
  match s with
  | EmptyString => EmptyString
  | String c r => json_escape_char c +:+ json_escape r
  end.

Definition json_dumps_str (s : string) : string :=
  String dquote (json_escape s +:+ String dquote EmptyString).

Fixpoint join (sep : string) (l : list string) : string :=
  match l with
  | [] => EmptyString
  | [x] => x
  | x :: r => x +:+ sep +:+ join sep r
  end.

Definition json_dumps (parts : list string) : string :=
  "[" +:+ join ", " (map json_dumps_str parts) +:+ "]".

Fixpoint encode (s : string) : list Z :=
  match s with
  | EmptyString => []
  | String c r => Z.of_nat (nat_of_ascii c) :: encode r
  end.

(** ** [get_cache_key] *)

(** The parts the loop over [headers] appends: ["name:value"] for each
    listed header the request carries with a non-empty value. *)
Fixpoint header_parts (request_headers : Headers) (hs : list string) : list string :=
  match hs with
  | [] => []
  | header :: r =>
      match headers_get request_headers header with
      | Some value =>
          if String.eqb value "" then header_parts request_headers r
          else (header +:+ ":" +:+ value) :: header_parts request_headers r
      | None => header_parts request_headers r
      end
  end.

Definition cache_key_parts (req : Request) (service path query_string : string)
    (hs : option (list string)) : list string :=
  [service; path; query_string] ++
  match hs with
  | Some l => header_parts (req_headers req) l
  | None => []
  end.

Definition get_cache_key (req : Request) (service path query_string : string)
    (hs : option (list string)) : string :=
  let key := MD5.hexdigest (encode (json_dumps (cache_key_parts req service path query_string hs))) in
  "apigw:" +:+ key.

(** ** The environment of one request

    What the handler reads from outside: the clock, the draw of
    [random.choice] and the outcome of the upstream call made with
    [requests.request]. *)

Record UpstreamRequest : Type := mkUpstreamRequest {
  up_method : string;
  up_url : string;
  up_headers : gmap string string;
  up_params : list (string * string);
  up_json : option json
}.

Record UpstreamResponse : Type := mkUpstreamResponse {
  content : bytes;
  up_status_code : Z;
  up_response_headers : Headers
}.

Record Env : Type := mkEnv {
  now : Z;
  draw : nat;
  requests_request : UpstreamRequest → res UpstreamResponse
}.

(** ** [get_service_url] *)

(** [random.choice(l)] for a non-empty [l], given the draw. *)
Definition random_choice (draw : nat) (l : list string) : option string :=
  l !! (draw mod length l)%nat.

Definition get_service_url (cfg : ConfigT) (draw : nat) (service : string)
  : option string :=
  match services_get (SERVICES cfg) service with
  | None => None
  | Some service_urls =>
      match service_urls with
      | [] => None
      | _ => random_choice draw service_urls
      end
  end.

(** ** [forward_request] *)

Fixpoint lstrip_slash (s : string) : string :=
  match s with
  | String c r => if Ascii.eqb c "/"%char then lstrip_slash r else s
  | EmptyString => EmptyString
  end.

(** The loop that fills [request_headers]. *)
Fixpoint prepare_headers (request_headers : Headers) (hs : list string)
    (acc : gmap string string) : gmap string string :=
  match hs with
  | [] => acc
  | header :: r =>
      match headers_get request_headers header with
      | Some value =>
          if String.eqb value "" then prepare_headers request_headers r acc
          else prepare_headers request_headers r (<[header := value]> acc)
      | None => prepare_headers request_headers r acc
      end
  end.

Definition safe_response_headers : list string :=
  ["Content-Type"; "Content-Length"; "Content-Language"; "ETag"].

(** The loop that copies the upstream response's headers. *)
Definition copy_response_headers (upstream : Headers) (r : Response) : Response :=
  fold_left
    (λ acc header,
       match headers_get upstream header with
       | Some v => set_header acc header v
       | None => acc
       end)
    safe_response_headers r.

Definition upstream_request (req : Request) (service_url path method : string)
    (hs : list string) (data : option json) (params : list (string * string))
  : UpstreamRequest :=
  {| up_method := method;
     up_url := service_url +:+ "/" +:+ lstrip_slash path;
     up_headers :=
       <["X-Gateway-Source" := "api-gateway"]> (prepare_headers (req_headers req) hs ∅);
     up_params := match params with [] => args req | _ => params end;
     up_json := data |}.

Definition gateway_response (response : UpstreamResponse) : Response :=
  copy_response_headers (up_response_headers response)
    {| data := BRaw (content response);
       status_code := up_status_code response;
       headers :=
         [("Content-Type",
           default "application/json"
             (headers_get (up_response_headers response) "Content-Type"))] |}.

Definition service_not_found (service : string) : view_rv :=
  RvTuple2 (jsonify (JDict [("error", JStr ("Service " +:+ service +:+ " not found"))])) 404.

Definition service_unavailable (msg : string) : view_rv :=
  RvTuple2 (jsonify (JDict [("error", JStr "Service unavailable"); ("message", JStr msg)])) 503.

Definition forward_request (cfg : ConfigT) (env : Env) (req : Request)
    (service path method : string) (hs : list string) (data : option json)
    (params : list (string * string)) : res view_rv :=
  match get_service_url cfg (draw env) service with
  | None => Ok (service_not_found service)
  | Some service_url =>
      if String.eqb service_url "" then Ok (service_not_found service)
      else
        match requests_request env
                (upstream_request req service_url path method hs data params) with
        | Ok response => Ok (RvResponse (gateway_response response))
        | Raise (RequestException msg) => Ok (service_unavailable msg)
        | Raise e => Raise e
        end
  end.

(** ** Werkzeug's [SimpleCache]

    A dictionary from key to expiry time and value, in insertion order;
    [set] prunes before it stores once more than [cache_threshold] keys
    are held. *)

Definition SimpleCache : Type := list (string * (Z * json)).

Definition cache_threshold : nat := 500.

Fixpoint dict_get {V : Type} (d : list (string * V)) (k : string) : option V :=
  match d with
  | [] => None
  | (k', v) :: r => if String.eqb k' k then Some v else dict_get r k
  end.

Fixpoint dict_set {V : Type} (d : list (string * V)) (k : string) (v : V)
  : list (string * V) :=
  match d with
  | [] => [(k, v)]
  | (k', v') :: r =>
      if String.eqb k' k then (k, v) :: r else (k', v') :: dict_set r k v
  end.

Fixpoint prune_from (now : Z) (idx : nat) (d : SimpleCache) : SimpleCache :=
  match d with
  | [] => []
  | (k, (expires, v)) :: r =>
      if (negb (expires =? 0) && (expires <=? now)) || (idx mod 3 =? 0)%nat
      then prune_from now (S idx) r
      else (k, (expires, v)) :: prune_from now (S idx) r
  end.

Definition cache_prune (now : Z) (d : SimpleCache) : SimpleCache :=
  if (cache_threshold <? length d)%nat then prune_from now 0 d else d.

Definition cache_get (now : Z) (d : SimpleCache) (k : string) : option json :=
  match dict_get d k with
  | Some (expires, v) =>
      if (expires =? 0) || (now <? expires) then Some v else None
  | None => None
  end.

Definition cache_set (now : Z) (d : SimpleCache) (k : string) (v : json)
    (timeout : Z) : SimpleCache :=
  let expires := if 0 <? timeout then now + timeout else timeout in
  dict_set (cache_prune now d) k (expires, v).

(** ** The dispatcher: [api_gateway] *)

Definition method_not_allowed : view_rv :=
  RvTuple2 (jsonify (JDict [("error", JStr "Method not allowed")])) 405.

Section Dispatcher.

(** [json.loads] on the bytes of a response body. *)
Variable json_loads : bytes → res json.

(** [json.loads(response.data)]; a body built by [jsonify] reads back as
    the value it was built from. *)
Definition loads_data (r : Response) : res json :=
  match data r with
  | BRaw b => json_loads b
  | BJson j => Ok j
  end.

(** The block under "Cache successful GET responses", for a response
    object whose status is 200. *)
Definition cache_store (cfg : ConfigT) (env : Env) (req : Request)
    (service path : string) (cache : SimpleCache) (response : Response)
  : SimpleCache * res view_rv :=
  match loads_data response with
  | Ok response_data =>
      let cache_key := get_cache_key req service path (query_string req) None in
      (cache_set (now env) cache cache_key response_data (CACHE_TIMEOUT cfg),
       Ok (RvResponse response))
  | Raise JSONDecodeError | Raise TypeError => (cache, Ok (RvResponse response))
  | Raise e => (cache, Raise e)
  end.

Definition api_gateway_get (cfg : ConfigT) (env : Env) (req : Request)
    (service path : string) (cache : SimpleCache) : SimpleCache * res view_rv :=
  match forward_request cfg env req service path "GET"
          ["Authorization"; "Accept"; "Accept-Language"] None (args req) with
  | Raise e => (cache, Raise e)
  | Ok response =>
      if CACHE_ENABLED cfg then
        (* [response.status_code]: a tuple has no such attribute *)
        match response with
        | RvTuple2 _ _ => (cache, Raise AttributeError)
        | RvResponse r =>
            if status_code r =? 200 then cache_store cfg env req service path cache r
            else (cache, Ok response)
        end
      else (cache, Ok response)
  end.

Definition api_gateway (cfg : ConfigT) (env : Env) (req : Request)
    (service path : string) (cache : SimpleCache) : SimpleCache * res view_rv :=
  let method := req_method req in
  match services_get (SERVICES cfg) service with
  | None => (cache, Ok (service_not_found service))
  | Some _ =>
      let cached_response :=
        if String.eqb method "GET" && CACHE_ENABLED cfg then
          cache_get (now env) cache
            (get_cache_key req service path (query_string req) None)
        else None in
      match cached_response with
      | Some j =>
          if truthy j then (cache, Ok (RvResponse (jsonify j)))
          else api_gateway_get cfg env req service path cache
      | None =>
          if String.eqb method "GET" then
            api_gateway_get cfg env req service path cache
          else if String.eqb method "POST" || String.eqb method "PUT"
                  || String.eqb method "PATCH" then
            (cache,
             forward_request cfg env req service path method
               ["Authorization"; "Content-Type"] (get_json req) [])
          else if String.eqb method "DELETE" then
            (cache,
             forward_request cfg env req service path method ["Authorization"] None [])
          else (cache, Ok method_not_allowed)
      end
  end.

(** ** The decorators and the route *)

Record Gateway : Type := mkGateway {
  rate_limits : gmap string (list Z);
  cache : SimpleCache
}.

Definition unauthorized : view_rv :=
  RvTuple2 (jsonify (JDict [("error", JStr "Invalid or missing API key")])) 401.

(** [request.headers.get('X-API-Key', request.remote_addr)] *)
Definition client_id (req : Request) : string :=
  default (remote_addr req) (headers_get (req_headers req) "X-API-Key").

(** The three headers the limiter sets on the response object. *)
Definition rate_limit_headers (cfg : ConfigT) (now request_count : Z)
    (response_obj : Response) : Response :=
  let r := set_header response_obj "X-RateLimit-Limit" (str (RATE_LIMIT_MAX_REQUESTS cfg)) in
  let r := set_header r "X-RateLimit-Remaining"
             (str (RATE_LIMIT_MAX_REQUESTS cfg - request_count - 1)) in
  set_header r "X-RateLimit-Reset" (str (now + RATE_LIMIT_WINDOW cfg)).

(** [rate_limit(f)].  Every value [f] returns here holds a response
    object, so the branch for other view values is never taken. *)
Definition rate_limit (cfg : ConfigT) (env : Env) (req : Request)
    (f : SimpleCache → SimpleCache * res view_rv) (g : Gateway)
  : Gateway * res view_rv :=
  if negb (RATE_LIMIT_ENABLED cfg) then
    let '(c, r) := f (cache g) in (mkGateway (rate_limits g) c, r)
  else
    let '(rl, d) := rate_limit_check cfg (rate_limits g) (client_id req) (now env) in
    match d with
    | Raise e => (mkGateway rl (cache g), Raise e)
    | Ok (RlReject retry_after) =>
        (mkGateway rl (cache g),
         Ok (RvTuple2 (jsonify (rate_limit_exceeded cfg retry_after)) 429))
    | Ok (RlAccept request_count) =>
        let '(c, r) := f (cache g) in
        (mkGateway rl c,
         response ←! r;
         let response_obj :=
           match response with
           | RvResponse o => o
           | RvTuple2 o _ => o
           end in
         Ok (RvResponse (rate_limit_headers cfg (now env) request_count response_obj)))
    end.

Definition require_api_key (cfg : ConfigT) (req : Request)
    (f : Gateway → Gateway * res view_rv) (g : Gateway) : Gateway * res view_rv :=
  match headers_get (req_headers req) "X-API-Key" with
  | Some api_key =>
      if String.eqb api_key "" || negb (String.eqb api_key (API_KEY cfg))
      then (g, Ok unauthorized)
      else f g
  | None => (g, Ok unauthorized)
  end.

(** The route [/api/<service>/<path>] with its decorators. *)
Definition proxy_route (cfg : ConfigT) (env : Env) (req : Request)
    (service path : string) (g : Gateway) : Gateway * res view_rv :=
  require_api_key cfg req
    (rate_limit cfg env req (api_gateway cfg env req service path)) g.

End Dispatcher.

(** ** The admin routes *)

(** [clear_cache]: the body of the view, and the view behind the key
    check.  [cache.clear()] empties the dictionary. *)
Definition clear_cache (cfg : ConfigT) (g : Gateway) : Gateway * res view_rv :=
  if negb (CACHE_ENABLED cfg) then
    (g, Ok (RvTuple2 (jsonify (JDict [("message", JStr "Cache is disabled")])) 200))
  else
    (mkGateway (rate_limits g) [],
     Ok (RvResponse (jsonify (JDict [("message", JStr "Cache cleared successfully")])))).

Definition clear_cache_route (cfg : ConfigT) (req : Request) (g : Gateway)
  : Gateway * res view_rv :=
  require_api_key cfg req (clear_cache cfg) g.

(** One entry of the dictionary [result] of [list_rate_limits]. *)
Record RateInfo : Type := mkRateInfo {
  request_count : Z;
  remaining : Z;
  reset : Z
}.

(** The loop of [list_rate_limits] over [rate_limits.items()].  The clock
    is read anew for every client: [clock client_id] is the reading made
    in that client's turn. *)
Definition current_rate_limits (cfg : ConfigT) (clock : string → Z)
    (rate_limits : gmap string (list Z)) : gmap string RateInfo :=
  map_imap
    (λ client_id timestamps,
       let now := clock client_id in
       let window_start := now - RATE_LIMIT_WINDOW cfg in
       let current_requests := purge window_start timestamps in
       match current_requests with
       | [] => None
       | _ =>
           Some {| request_count := Z.of_nat (length current_requests);
                   remaining :=
                     Z.max 0 (RATE_LIMIT_MAX_REQUESTS cfg
                              - Z.of_nat (length current_requests));
                   reset := window_start + RATE_LIMIT_WINDOW cfg |}
       end)
    rate_limits.

(** What [list_rate_limits] answers: the 401 of the key check, the note
    that limiting is disabled, or the report with the configuration. *)
Inductive rate_limits_rv : Type :=
  | RlvUnauthorized
  | RlvDisabled
  | RlvReport (result : gmap string RateInfo) (window max_requests : Z).

Definition list_rate_limits (cfg : ConfigT) (clock : string → Z) (req : Request)
    (g : Gateway) : rate_limits_rv :=
  match headers_get (req_headers req) "X-API-Key" with
  | Some api_key =>
      if String.eqb api_key "" || negb (String.eqb api_key (API_KEY cfg))
      then RlvUnauthorized
      else if negb (RATE_LIMIT_ENABLED cfg) then RlvDisabled
      else RlvReport (current_rate_limits cfg clock (rate_limits g))
             (RATE_LIMIT_WINDOW cfg) (RATE_LIMIT_MAX_REQUESTS cfg)
  | None => RlvUnauthorized
  end.

(** ** Reading the hashed text back

    A reader for the text [json_dumps] writes, used to show that the
    text determines the list it was written from. *)





(** A lowercase hexadecimal digit. *)
Definition is_lower_hex (c : ascii) : bool :=
  let n := nat_of_ascii c in
  ((48 <=? n) && (n <=? 57) || (97 <=? n) && (n <=? 102))%nat.

(** * The vocabulary of the statements *)

(** ** The limiter *)

(** What is left of the client's window once the expired timestamps are
    gone. *)
Definition kept (cfg : ConfigT) (rl : gmap string (list Z)) (cid : string)
    (now : Z) : list Z :=
  purge (now - RATE_LIMIT_WINDOW cfg) (rl !!! cid).

Definition is_accept (d : res rl_decision) : bool :=
  match d with
  | Ok (RlAccept _) => true
  | _ => false
  end.

Definition is_reject (d : res rl_decision) : bool :=
  match d with
  | Ok (RlReject _) => true
  | _ => false
  end.

(** Whether the limiter lets the request through. *)
Definition allowed (cfg : ConfigT) (rl : gmap string (list Z)) (cid : string)
    (now : Z) : bool :=
  is_accept (rate_limit_check cfg rl cid now).2.

(** The limiter called for one client at each of [times] in turn. *)
Fixpoint rate_limit_run (cfg : ConfigT) (rl : gmap string (list Z)) (cid : string)
    (times : list Z) : gmap string (list Z) * list (res rl_decision) :=
  match times with
  | [] => (rl, [])
  | t :: r =>
      let '(rl1, d) := rate_limit_check cfg rl cid t in
      let '(rl2, ds) := rate_limit_run cfg rl1 cid r in
      (rl2, d :: ds)
  end.

(** The decision in the specification's words, "purge timestamps older
    than [now - W]; allowed when fewer than [N] remain": a timestamp of
    age exactly [W] is not older than [now - W] and stays. *)
Definition spec_purge (cfg : ConfigT) (now : Z) (l : list Z) : list Z :=
  filter (λ ts, now - RATE_LIMIT_WINDOW cfg ≤ ts) l.

Definition spec_allowed (cfg : ConfigT) (rl : gmap string (list Z)) (cid : string)
    (now : Z) : bool :=
  Z.of_nat (length (spec_purge cfg now (rl !!! cid))) <? RATE_LIMIT_MAX_REQUESTS cfg.

(** ** Query strings *)

(** The parameters of a query string, split at the ampersand. *)
Fixpoint split_amp (s : string) (cur : string) : list string :=
  match s with
  | EmptyString => [cur]
  | String c r =>
      if Ascii.eqb c "&"%char then cur :: split_amp r EmptyString
      else split_amp r (cur +:+ String c EmptyString)
  end.

Definition query_params (q : string) : list string := split_amp q EmptyString.

(** ** Backend selection *)

(** Resolution as the specification words it: a uniform choice among the
    endpoints marked healthy, none when no endpoint is healthy. *)
Definition spec_resolve (healthy : string → bool) (cfg : ConfigT) (draw : nat)
    (service : string) : option string :=
  match services_get (SERVICES cfg) service with
  | None => None
  | Some service_urls =>
      match List.filter healthy service_urls with
      | [] => None
      | up => random_choice draw up
      end
  end.

(** ** The route *)

(** The test of [require_api_key]: the key is there, not empty, and the
    configured one. *)
Definition authenticated (cfg : ConfigT) (req : Request) : bool :=
  match headers_get (req_headers req) "X-API-Key" with
  | Some api_key => negb (String.eqb api_key "") && String.eqb api_key (API_KEY cfg)
  | None => false
  end.

(** One inbound request to the proxy route, with what it finds outside. *)
Record Call : Type := mkCall {
  call_env : Env;
  call_req : Request;
  call_service : string;
  call_path : string
}.

(** The gateway serving a sequence of requests, one after the other. *)
Fixpoint serve (json_loads : bytes → res json) (cfg : ConfigT) (calls : list Call)
    (g : Gateway) : Gateway :=
  match calls with
  | [] => g
  | c :: r =>
      serve json_loads cfg r
        (proxy_route json_loads cfg (call_env c) (call_req c) (call_service c)
           (call_path c) g).1
  end.

(** ** Sample data for the examples *)

(** What [json.loads] does on the bodies used in the examples: a byte
    that is not UTF-8 cannot be decoded, [null] and [{}] parse, the HTML
    fragment does not. *)
Definition sample_loads (b : bytes) : res json :=
  match b with
  | [Byte.xff] => Raise UnicodeDecodeError
  | [Byte.x6e; Byte.x75; Byte.x6c; Byte.x6c] => Ok JNull
  | [Byte.x7b; Byte.x7d] => Ok (JDict [])
  | _ => Raise JSONDecodeError
  end.

(** A backend that refuses the connection, and one that answers. *)
Definition env_down : Env :=
  {| now := 1000; draw := 0;
     requests_request := λ _, Raise (RequestException "connection refused") |}.

Definition env_up (body : bytes) (status : Z) (hs : Headers) : Env :=
  {| now := 1000; draw := 0;
     requests_request := λ _, Ok (mkUpstreamResponse body status hs) |}.

Definition sample_request (method : string) (key : string) : Request :=
  mkRequest method [("X-API-Key", key)] "10.0.0.1" "" [] None.

(** [sample_loads] with one more body, the list [[1]]. *)
Definition sample_loads_list (b : bytes) : res json :=
  match b with
  | [Byte.x5b; Byte.x31; Byte.x5d] => Ok (JList [JInt 1])
  | _ => sample_loads b
  end.

(** * Properties *)

(** ** The digest agrees with the reference values *)

Example md5_empty : MD5.hexdigest (encode "") = "d41d8cd98f00b204e9800998ecf8427e".
Proof. vm_compute. reflexivity. Qed.

Example md5_abc : MD5.hexdigest (encode "abc") = "900150983cd24fb0d6963f7d28e17f72".
Proof. vm_compute. reflexivity. Qed.

Example md5_two_blocks :
  MD5.hexdigest (repeat 97 120) = "5f61c0ccad4cac44c75ff505e1f1e537"
  ∧ MD5.hexdigest (repeat 97 56) = "3b0c8ac703f828b04c6c197006d17218"
  ∧ MD5.hexdigest (repeat 97 64) = "014842d480b571495a4a0363793f7367"
  ∧ MD5.hexdigest (repeat 97 119) = "8a7bd0732ed6a28ce75f6dabc90e1613".
Proof. vm_compute. repeat split. Qed.

(** ** Lists of timestamps *)

Lemma purge_purge (a b : Z) (l : list Z) :
  a ≤ b → purge b (purge a l) = purge b l.
Proof.
  intros Hab. unfold purge. induction l as [|x l IH]; [done|].
  rewrite !filter_cons. destruct (decide (a < x)) as [Ha|Ha].
  - rewrite filter_cons. destruct (decide (b < x)); by rewrite IH.
  - rewrite decide_False by lia. done.
Qed.

Lemma purge_app (a : Z) (l k : list Z) : purge a (l ++ k) = purge a l ++ purge a k.
Proof. apply filter_app. Qed.

Lemma purge_all (a : Z) (l : list Z) : Forall (λ ts, a < ts) l → purge a l = l.
Proof.
  induction 1 as [|x l Hx _ IH]; [done|].
  unfold purge in *. by rewrite filter_cons, decide_True, IH.
Qed.

Lemma purge_length (a : Z) (l : list Z) : (length (purge a l) ≤ length l)%nat.
Proof. apply length_filter. Qed.

Lemma purge_sublist (a : Z) (l : list Z) : sublist (purge a l) l.
Proof. apply sublist_filter. Qed.

Lemma fold_min_spec (r : list Z) (x : Z) :
  let m := fold_left Z.min r x in
  (m = x ∨ m ∈ r) ∧ m ≤ x ∧ Forall (λ ts, m ≤ ts) r.
Proof.
  revert x. induction r as [|y r IH]; intros x; simpl.
  - split; [by left|]. split; [lia|constructor].
  - destruct (IH (Z.min x y)) as (Hin & Hle & Hall). split; [|split].
    + destruct Hin as [Heq|Hin].
      * destruct (Z.min_spec x y) as [[_ E]|[_ E]]; rewrite E in *.
        -- by left.
        -- right. rewrite Heq. apply list_elem_of_here.
      * right. by apply list_elem_of_further.
    + lia.
    + constructor; [lia|done].
Qed.

Lemma py_min_spec (l : list Z) (m : Z) :
  py_min l = Some m → m ∈ l ∧ Forall (λ ts, m ≤ ts) l.
Proof.
  destruct l as [|x r]; [done|]. simpl. intros [= <-].
  destruct (fold_min_spec r x) as (Hin & Hle & Hall). split.
  - destruct Hin as [->|Hin]; [apply list_elem_of_here|by apply list_elem_of_further].
  - by constructor.
Qed.

Lemma py_min_is_Some (l : list Z) : l ≠ [] → is_Some (py_min l).
Proof. destruct l; [done|]. intros _. by eexists. Qed.

(** ** One call of the limiter *)

Lemma rate_limit_check_unfold (cfg : ConfigT) (rl : gmap string (list Z))
    (cid : string) (now : Z) :
  rate_limit_check cfg rl cid now =
  let l' := kept cfg rl cid now in
  if RATE_LIMIT_MAX_REQUESTS cfg <=? Z.of_nat (length l') then
    (<[cid := l']> rl,
     match py_min l' with
     | Some m => Ok (RlReject (RATE_LIMIT_WINDOW cfg - (now - m)))
     | None => Raise ValueError
     end)
  else (<[cid := l' ++ [now]]> rl, Ok (RlAccept (Z.of_nat (length l')))).
Proof.
  unfold rate_limit_check, kept. rewrite lookup_total_alt.
  destruct (rl !! cid) as [l|] eqn:E; simpl.
  - rewrite lookup_total_insert_eq.
    destruct (_ <=? _); [by destruct (py_min _)|].
    by rewrite insert_insert_eq.
  - rewrite lookup_total_insert_eq. simpl.
    destruct (_ <=? _); [done|]. by rewrite insert_insert_eq.
Qed.

Lemma rate_limit_check_accept (cfg : ConfigT) (rl : gmap string (list Z))
    (cid : string) (now : Z) :
  Z.of_nat (length (kept cfg rl cid now)) < RATE_LIMIT_MAX_REQUESTS cfg →
  rate_limit_check cfg rl cid now =
  (<[cid := kept cfg rl cid now ++ [now]]> rl,
   Ok (RlAccept (Z.of_nat (length (kept cfg rl cid now))))).
Proof.
  intros H. rewrite rate_limit_check_unfold. simpl.
  destruct (Z.leb_spec (RATE_LIMIT_MAX_REQUESTS cfg)
              (Z.of_nat (length (kept cfg rl cid now)))); [lia|done].
Qed.

Lemma rate_limit_check_reject (cfg : ConfigT) (rl : gmap string (list Z))
    (cid : string) (now : Z) :
  0 < RATE_LIMIT_MAX_REQUESTS cfg →
  RATE_LIMIT_MAX_REQUESTS cfg ≤ Z.of_nat (length (kept cfg rl cid now)) →
  ∃ m, py_min (kept cfg rl cid now) = Some m ∧
       rate_limit_check cfg rl cid now =
       (<[cid := kept cfg rl cid now]> rl,
        Ok (RlReject (RATE_LIMIT_WINDOW cfg - (now - m)))).
Proof.
  intros HN H. rewrite rate_limit_check_unfold. simpl.
  destruct (Z.leb_spec (RATE_LIMIT_MAX_REQUESTS cfg)
              (Z.of_nat (length (kept cfg rl cid now)))); [|lia].
  destruct (py_min_is_Some (kept cfg rl cid now)) as [m Hm].
  { intros E. rewrite E in H. simpl in H. lia. }
  exists m. by rewrite Hm.
Qed.

Lemma rate_limit_check_reject_inv (cfg : ConfigT) (rl rl' : gmap string (list Z))
    (cid : string) (now ra : Z) :
  rate_limit_check cfg rl cid now = (rl', Ok (RlReject ra)) →
  RATE_LIMIT_MAX_REQUESTS cfg ≤ Z.of_nat (length (kept cfg rl cid now))
  ∧ rl' = <[cid := kept cfg rl cid now]> rl
  ∧ ∃ m, py_min (kept cfg rl cid now) = Some m
         ∧ ra = RATE_LIMIT_WINDOW cfg - (now - m).
Proof.
  rewrite rate_limit_check_unfold. simpl.
  destruct (Z.leb_spec (RATE_LIMIT_MAX_REQUESTS cfg)
              (Z.of_nat (length (kept cfg rl cid now)))) as [Hle|Hlt]; [|done].
  destruct (py_min _) as [m|] eqn:Hm; [|done].
  intros [= <- <-]. split; [done|]. split; [done|]. by exists m.
Qed.

Lemma rate_limit_check_accept_inv (cfg : ConfigT) (rl rl' : gmap string (list Z))
    (cid : string) (now c : Z) :
  rate_limit_check cfg rl cid now = (rl', Ok (RlAccept c)) →
  Z.of_nat (length (kept cfg rl cid now)) < RATE_LIMIT_MAX_REQUESTS cfg
  ∧ c = Z.of_nat (length (kept cfg rl cid now))
  ∧ rl' = <[cid := kept cfg rl cid now ++ [now]]> rl.
Proof.
  rewrite rate_limit_check_unfold. simpl.
  destruct (Z.leb_spec (RATE_LIMIT_MAX_REQUESTS cfg)
              (Z.of_nat (length (kept cfg rl cid now)))) as [Hle|Hlt].
  - by destruct (py_min _).
  - by intros [= <- <-].
Qed.

(** ** A client's successive calls *)

Lemma rate_limit_run_app (cfg : ConfigT) (rl : gmap string (list Z)) (cid : string)
    (a b : list Z) :
  rate_limit_run cfg rl cid (a ++ b) =
  let '(rl1, d1) := rate_limit_run cfg rl cid a in
  let '(rl2, d2) := rate_limit_run cfg rl1 cid b in
  (rl2, d1 ++ d2).
Proof.
  revert rl. induction a as [|t a IH]; intros rl; simpl.
  - by destruct (rate_limit_run cfg rl cid b).
  - destruct (rate_limit_check cfg rl cid t) as [rl1 d]. rewrite IH.
    destruct (rate_limit_run cfg rl1 cid a) as [rl2 ds].
    by destruct (rate_limit_run cfg rl2 cid b).
Qed.

(** When every request finds fewer than [N] earlier timestamps inside its
    window, every request is accepted, and the stored window agrees with
    the full history on everything a later call can still see. *)
Lemma rate_limit_run_accepts (cfg : ConfigT) (cid : string) (times : list Z) :
  ∀ rl : gmap string (list Z),
  StronglySorted Z.le times →
  (∀ (i : nat) (t : Z), times !! i = Some t →
     Z.of_nat (length (purge (t - RATE_LIMIT_WINDOW cfg) (rl !!! cid ++ take i times)))
     < RATE_LIMIT_MAX_REQUESTS cfg) →
  Forall (λ d, is_accept d = true) (rate_limit_run cfg rl cid times).2
  ∧ length (rate_limit_run cfg rl cid times).2 = length times
  ∧ ∀ t' : Z, Forall (λ t, t ≤ t') times →
      purge (t' - RATE_LIMIT_WINDOW cfg) ((rate_limit_run cfg rl cid times).1 !!! cid)
      = purge (t' - RATE_LIMIT_WINDOW cfg) (rl !!! cid ++ times).
Proof.
  induction times as [|t ts IH]; intros rl Hs Hc.
  - simpl. split; [constructor|]. split; [done|]. intros t' _. by rewrite app_nil_r.
  - apply StronglySorted_inv in Hs as [Hs Hle].
    assert (Hk : Z.of_nat (length (kept cfg rl cid t)) < RATE_LIMIT_MAX_REQUESTS cfg).
    { specialize (Hc 0%nat t eq_refl). simpl in Hc. by rewrite app_nil_r in Hc. }
    simpl. rewrite (rate_limit_check_accept _ _ _ _ Hk).
    set (rl1 := <[cid := kept cfg rl cid t ++ [t]]> rl).
    assert (Hw : rl1 !!! cid = kept cfg rl cid t ++ [t])
      by (unfold rl1; apply lookup_total_insert_eq).
    assert (Hp : ∀ (t' : Z) (k : list Z), t ≤ t' →
              purge (t' - RATE_LIMIT_WINDOW cfg) (rl1 !!! cid ++ k)
              = purge (t' - RATE_LIMIT_WINDOW cfg) (rl !!! cid ++ t :: k)).
    { intros t' k Ht. rewrite Hw. unfold kept.
      rewrite <- app_assoc. simpl. rewrite !purge_app, purge_purge by lia. done. }
    destruct (IH rl1 Hs) as (Hacc & Hlen & Hfin).
    { intros i t' Hi. rewrite Hp.
      - apply (Hc (S i) t'). done.
      - rewrite Forall_forall in Hle. apply Hle.
        eapply list_elem_of_lookup_2. done. }
    destruct (rate_limit_run cfg rl1 cid ts) as [rl2 ds] eqn:E. simpl in *.
    split; [by constructor|]. split; [by rewrite Hlen|].
    intros t' Ht'. apply Forall_cons in Ht' as [Ht Hts].
    rewrite (Hfin t' Hts). by apply Hp.
Qed.

(** ** The sliding-window bound *)

Lemma take_length_lt {A : Type} (l : list A) (i : nat) (x : A) :
  l !! i = Some x → (length (take i l) < length l)%nat.
Proof.
  intros H. apply lookup_lt_Some in H. rewrite length_take. lia.
Qed.

Lemma rate_limit_run_fresh (cfg : ConfigT) (cid : string) (times : list Z) :
  StronglySorted Z.le times →
  Z.of_nat (length times) ≤ RATE_LIMIT_MAX_REQUESTS cfg →
  Forall (λ d, is_accept d = true) (rate_limit_run cfg ∅ cid times).2
  ∧ ∀ t' : Z, Forall (λ t, t ≤ t') times →
      kept cfg (rate_limit_run cfg ∅ cid times).1 cid t'
      = purge (t' - RATE_LIMIT_WINDOW cfg) times.
Proof.
  intros Hs Hn.
  destruct (rate_limit_run_accepts cfg cid times ∅ Hs) as (Hacc & _ & Hfin).
  - intros i t Hi. rewrite lookup_total_empty. simpl.
    pose proof (purge_length (t - RATE_LIMIT_WINDOW cfg) (take i times)).
    pose proof (take_length_lt _ _ _ Hi). lia.
  - split; [done|]. intros t' Ht'. unfold kept. rewrite (Hfin t' Ht').
    by rewrite lookup_total_empty.
Qed.

(** C1 (as amended): the limiter accepts exactly when fewer than [N]
    timestamps of the client are strictly newer than [now - W] (a
    timestamp of age exactly [W] has expired), and rejects exactly when at
    least [N] are; an accepted call leaves the purged window with [now]
    appended.  Hence a client's requests are all accepted as long as each
    finds fewer than [N] earlier ones inside its window, in particular
    any [N] or fewer requests of a new client; and a further request made
    while [N] accepted ones are still newer than [now - W] is rejected,
    which the decorator answers with status 429 without calling the
    handler. *)
Theorem rate_limit_sliding_window (cfg : ConfigT) :
  0 < RATE_LIMIT_MAX_REQUESTS cfg →
  (∀ (rl : gmap string (list Z)) (cid : string) (now : Z),
     (allowed cfg rl cid now = true
      ↔ Z.of_nat (length (kept cfg rl cid now)) < RATE_LIMIT_MAX_REQUESTS cfg)
     ∧ (is_reject (rate_limit_check cfg rl cid now).2 = true
        ↔ RATE_LIMIT_MAX_REQUESTS cfg ≤ Z.of_nat (length (kept cfg rl cid now)))
     ∧ (allowed cfg rl cid now = true →
        (rate_limit_check cfg rl cid now).1 !!! cid = kept cfg rl cid now ++ [now]))
  ∧ (∀ (rl : gmap string (list Z)) (cid : string) (times : list Z),
       StronglySorted Z.le times →
       (∀ (i : nat) (t : Z), times !! i = Some t →
          Z.of_nat (length (purge (t - RATE_LIMIT_WINDOW cfg) (rl !!! cid ++ take i times)))
          < RATE_LIMIT_MAX_REQUESTS cfg) →
       Forall (λ d, is_accept d = true) (rate_limit_run cfg rl cid times).2)
  ∧ (∀ (cid : string) (times : list Z),
       StronglySorted Z.le times →
       Z.of_nat (length times) ≤ RATE_LIMIT_MAX_REQUESTS cfg →
       Forall (λ d, is_accept d = true) (rate_limit_run cfg ∅ cid times).2)
  ∧ (∀ (cid : string) (times : list Z) (t' : Z),
       StronglySorted Z.le times →
       Z.of_nat (length times) = RATE_LIMIT_MAX_REQUESTS cfg →
       Forall (λ t, t' - RATE_LIMIT_WINDOW cfg < t ∧ t ≤ t') times →
       ∃ ds ra, (rate_limit_run cfg ∅ cid (times ++ [t'])).2 = ds ++ [Ok (RlReject ra)]
                ∧ Forall (λ d, is_accept d = true) ds
                ∧ length ds = length times)
  ∧ (∀ (env : Env) (req : Request) (f : SimpleCache → SimpleCache * res view_rv)
       (g : Gateway),
       RATE_LIMIT_ENABLED cfg = true →
       is_reject (rate_limit_check cfg (rate_limits g) (client_id req) (now env)).2 = true →
       ∃ v, (rate_limit cfg env req f g).2 = Ok v
            ∧ status_code (make_response v) = 429
            ∧ cache (rate_limit cfg env req f g).1 = cache g).
Proof.
  intros HN. split; [|split; [|split; [|split]]].
  - intros rl cid now. unfold allowed. rewrite rate_limit_check_unfold. simpl.
    destruct (Z.leb_spec (RATE_LIMIT_MAX_REQUESTS cfg)
                (Z.of_nat (length (kept cfg rl cid now)))) as [Hle|Hlt]; simpl.
    + destruct (py_min_is_Some (kept cfg rl cid now)) as [m Hm].
      { intros E. rewrite E in Hle. simpl in Hle. lia. }
      rewrite Hm. simpl. split; [|split]; [split; [done|lia]|done|done].
    + split; [|split]; [done|split; [done|lia]|].
      intros _. apply lookup_total_insert_eq.
  - intros rl cid times Hs Hc.
    by destruct (rate_limit_run_accepts cfg cid times rl Hs Hc) as (? & _).
  - intros cid times Hs Hn.
    by destruct (rate_limit_run_fresh cfg cid times Hs Hn) as (? & _).
  - intros cid times t' Hs Hn Hall.
    destruct (rate_limit_run_accepts cfg cid times ∅ Hs) as (Hacc & Hlen & _).
    { intros i t Hi. rewrite lookup_total_empty. simpl.
      pose proof (purge_length (t - RATE_LIMIT_WINDOW cfg) (take i times)).
      pose proof (take_length_lt _ _ _ Hi). lia. }
    destruct (rate_limit_run_fresh cfg cid times Hs) as (_ & Hfin); [lia|].
    rewrite rate_limit_run_app.
    destruct (rate_limit_run cfg ∅ cid times) as [rl1 ds] eqn:E. simpl in *.
    assert (Hk : kept cfg rl1 cid t' = times).
    { rewrite Hfin.
      - apply purge_all. eapply Forall_impl; [exact Hall|]. simpl. tauto.
      - eapply Forall_impl; [exact Hall|]. simpl. tauto. }
    destruct (rate_limit_check_reject cfg rl1 cid t' HN) as (m & _ & Hr).
    { rewrite Hk. lia. }
    rewrite Hr. by exists ds, (RATE_LIMIT_WINDOW cfg - (t' - m)).
  - intros env req f g Hen Hrej. unfold rate_limit. rewrite Hen. simpl.
    destruct (rate_limit_check cfg (rate_limits g) (client_id req) (now env))
      as [rl [[ra|c]|e]]; simpl in Hrej; try done.
    simpl. by eexists.
Qed.

Lemma rate_limit_sliding_window_witness :
  0 < RATE_LIMIT_MAX_REQUESTS Config
  ∧ Forall (λ d, is_accept d = true)
      (rate_limit_run Config ∅ "test-api-key" [0; 10; 20]).2.
Proof.
  assert (HN : 0 < RATE_LIMIT_MAX_REQUESTS Config) by (simpl; lia).
  split; [exact HN|].
  destruct (rate_limit_sliding_window Config HN) as (_ & _ & H & _).
  apply H.
  - repeat (constructor; [|repeat constructor; lia]). constructor.
  - simpl. lia.
Defined.

(** C1, the claim as worded: one hundred accepted requests at second 0
    and a further request at second 60 all lie in the window [0, 60] of
    length 60, no timestamp is older than [now - W = 0], one hundred
    remain, and yet the request is accepted. *)
Lemma rate_limit_boundary_counterexample :
  let cid := "test-api-key" in
  let rl := (rate_limit_run Config ∅ cid (repeat 0 100)).1 in
  rl !! cid = Some (repeat 0 100)
  ∧ spec_purge Config 60 (rl !!! cid) = repeat 0 100
  ∧ spec_allowed Config rl cid 60 = false
  ∧ allowed Config rl cid 60 = true
  ∧ Forall (λ d, is_accept d = true)
      (rate_limit_run Config ∅ cid (repeat 0 100 ++ [60])).2.
Proof.
  vm_compute. repeat split. repeat constructor.
Qed.

(** ** The retry time of a rejection *)

(** C2: when the limiter rejects, [retry_after] is the time until the
    oldest surviving timestamp leaves the window,
    [(oldest + W) - now = W - (now - oldest)], it is positive, and it is
    the value in the body of the 429 response. *)
Theorem rejection_retry_after (cfg : ConfigT) (rl rl' : gmap string (list Z))
    (cid : string) (t ra : Z) :
  rate_limit_check cfg rl cid t = (rl', Ok (RlReject ra)) →
  ∃ oldest,
    oldest ∈ kept cfg rl cid t
    ∧ Forall (λ ts, oldest ≤ ts) (kept cfg rl cid t)
    ∧ ra = (oldest + RATE_LIMIT_WINDOW cfg) - t
    ∧ ra = RATE_LIMIT_WINDOW cfg - (t - oldest)
    ∧ 0 < ra
    ∧ ∀ (env : Env) (req : Request) (f : SimpleCache → SimpleCache * res view_rv)
        (g : Gateway),
        RATE_LIMIT_ENABLED cfg = true → rate_limits g = rl →
        client_id req = cid → now env = t →
        (rate_limit cfg env req f g).2 =
        Ok (RvTuple2
              (jsonify
                 (JDict [("error", JStr "Rate limit exceeded");
                         ("limit", JInt (RATE_LIMIT_MAX_REQUESTS cfg));
                         ("window", JInt (RATE_LIMIT_WINDOW cfg));
                         ("retry_after", JInt ((oldest + RATE_LIMIT_WINDOW cfg) - t))]))
              429).
Proof.
  intros Hc. pose proof Hc as Hc'.
  apply rate_limit_check_reject_inv in Hc' as (_ & _ & m & Hm & ->).
  apply py_min_spec in Hm as [Hin Hall]. exists m.
  split; [done|]. split; [done|]. split; [lia|]. split; [done|]. split.
  - unfold kept, purge in Hin. apply list_elem_of_filter in Hin as [Hlt _]. lia.
  - intros env req f g Hen <- <- <-. unfold rate_limit. rewrite Hen, Hc. simpl.
    unfold rate_limit_exceeded.
    by replace (m + RATE_LIMIT_WINDOW cfg - now env)
      with (RATE_LIMIT_WINDOW cfg - (now env - m)) by lia.
Qed.

Lemma rejection_retry_after_witness :
  ∃ oldest,
    oldest ∈ kept Config {[ "test-api-key" := repeat 7 100 ]} "test-api-key" 30
    ∧ 37 = (oldest + 60) - 30.
Proof.
  destruct (rejection_retry_after Config {[ "test-api-key" := repeat 7 100 ]}
              {[ "test-api-key" := repeat 7 100 ]} "test-api-key" 30 37)
    as (oldest & Hin & _ & Hra & _).
  - vm_compute. reflexivity.
  - exists oldest. split; [exact Hin|exact Hra].
Defined.

(** ** Rejected requests leave no trace *)

Lemma rate_limit_check_purged (cfg : ConfigT) (rl : gmap string (list Z))
    (cid : string) (t t' : Z) :
  t ≤ t' →
  rate_limit_check cfg (<[cid := kept cfg rl cid t]> rl) cid t'
  = rate_limit_check cfg rl cid t'.
Proof.
  intros Ht. rewrite !rate_limit_check_unfold. simpl.
  assert (Hk : kept cfg (<[cid := kept cfg rl cid t]> rl) cid t' = kept cfg rl cid t').
  { unfold kept at 1. rewrite lookup_total_insert_eq. unfold kept.
    apply purge_purge. lia. }
  rewrite Hk, !insert_insert_eq. done.
Qed.

(** C3: a call that rejects stores the purged window and nothing else:
    the client's window only loses expired timestamps, [now] is not
    appended, the other clients and every later decision are as if the
    rejected call had not been made; [now] is appended exactly when the
    call accepts. *)
Theorem rejected_request_not_recorded (cfg : ConfigT) (rl : gmap string (list Z))
    (cid : string) (t : Z) :
  (∀ (rl' : gmap string (list Z)) (ra : Z),
     rate_limit_check cfg rl cid t = (rl', Ok (RlReject ra)) →
     rl' = <[cid := kept cfg rl cid t]> rl
     ∧ rl' !!! cid = purge (t - RATE_LIMIT_WINDOW cfg) (rl !!! cid)
     ∧ sublist (rl' !!! cid) (rl !!! cid)
     ∧ (∀ other : string, other ≠ cid → rl' !! other = rl !! other)
     ∧ (∀ t' : Z, t ≤ t' →
          rate_limit_check cfg rl' cid t' = rate_limit_check cfg rl cid t'))
  ∧ (∀ (rl' : gmap string (list Z)) (c : Z),
       rate_limit_check cfg rl cid t = (rl', Ok (RlAccept c)) →
       rl' !!! cid = purge (t - RATE_LIMIT_WINDOW cfg) (rl !!! cid) ++ [t]
       ∧ (∀ other : string, other ≠ cid → rl' !! other = rl !! other)).
Proof.
  split.
  - intros rl' ra Hc. apply rate_limit_check_reject_inv in Hc as (_ & -> & _).
    split; [done|]. rewrite lookup_total_insert_eq.
    split; [done|]. split; [apply purge_sublist|]. split.
    + intros other Hne. by rewrite lookup_insert_ne.
    + intros t' Ht. by apply rate_limit_check_purged.
  - intros rl' c Hc. apply rate_limit_check_accept_inv in Hc as (_ & _ & ->).
    rewrite lookup_total_insert_eq. split; [done|].
    intros other Hne. by rewrite lookup_insert_ne.
Qed.

Lemma rejected_request_not_recorded_witness :
  let rl : gmap string (list Z) := {[ "test-api-key" := repeat 7 100 ]} in
  sublist ((rate_limit_check Config rl "test-api-key" 30).1 !!! "test-api-key")
    (rl !!! "test-api-key").
Proof.
  intros rl.
  destruct (rejected_request_not_recorded Config rl "test-api-key" 30) as [H _].
  destruct (H rl 37) as (_ & _ & Hsub & _).
  - vm_compute. reflexivity.
  - replace (rate_limit_check Config rl "test-api-key" 30).1 with rl
      by (vm_compute; reflexivity).
    exact Hsub.
Defined.

(** ** The cache key *)

Lemma same_name_lower (a b : string) : same_name a b = true ↔ lower a = lower b.
Proof. unfold same_name. apply String.eqb_eq. Qed.

Lemma headers_get_None (hs : Headers) (name : string) :
  headers_get hs name = None ↔ ∀ k v, (k, v) ∈ hs → same_name k name = false.
Proof.
  induction hs as [|[k0 v0] r IH]; simpl.
  - split; [|done]. intros _ k v Hin. by apply elem_of_nil in Hin.
  - destruct (same_name k0 name) eqn:E.
    + split; [done|]. intros H. rewrite (H k0 v0) in E; [done|apply list_elem_of_here].
    + rewrite IH. split.
      * intros H k v Hin. apply elem_of_cons in Hin as [[= -> ->]|Hin]; [done|eauto].
      * intros H k v Hin. apply (H k v). by apply list_elem_of_further.
Qed.

Lemma headers_get_Some (hs : Headers) (name v : string) :
  headers_get hs name = Some v → ∃ k, (k, v) ∈ hs ∧ same_name k name = true.
Proof.
  induction hs as [|[k0 v0] r IH]; simpl; [done|].
  destruct (same_name k0 name) eqn:E.
  - intros [= ->]. exists k0. split; [apply list_elem_of_here|done].
  - intros H. destruct (IH H) as (k & Hin & Hk). exists k.
    split; [by apply list_elem_of_further|done].
Qed.

Lemma headers_get_unique (hs : Headers) (name k v : string) :
  NoDup ((λ kv, lower (fst kv)) <$> hs) →
  (k, v) ∈ hs → same_name k name = true → headers_get hs name = Some v.
Proof.
  induction hs as [|[k0 v0] r IH]; simpl; intros Hnd Hin Hk.
  - by apply elem_of_nil in Hin.
  - apply NoDup_cons in Hnd as [Hnotin Hnd].
    apply elem_of_cons in Hin as [[= -> ->]|Hin].
    + by rewrite Hk.
    + destruct (same_name k0 name) eqn:E; [|by apply IH].
      exfalso. apply Hnotin. apply same_name_lower in E, Hk. simpl.
      rewrite E, <- Hk. apply list_elem_of_fmap. by exists (k, v).
Qed.

Lemma headers_get_perm (hs1 hs2 : Headers) (name : string) :
  NoDup ((λ kv, lower (fst kv)) <$> hs1) → hs1 ≡ₚ hs2 →
  headers_get hs1 name = headers_get hs2 name.
Proof.
  intros Hnd Hp.
  assert (Hnd2 : NoDup ((λ kv, lower (fst kv)) <$> hs2)) by (by rewrite <- Hp).
  destruct (headers_get hs1 name) as [v|] eqn:E1.
  - apply headers_get_Some in E1 as (k & Hin & Hk). symmetry.
    apply (headers_get_unique hs2 name k v); [done| |done]. by rewrite <- Hp.
  - symmetry. apply headers_get_None. intros k v Hin.
    rewrite headers_get_None in E1. apply (E1 k v). by rewrite Hp.
Qed.

Lemma header_parts_perm (hs1 hs2 : Headers) (l : list string) :
  NoDup ((λ kv, lower (fst kv)) <$> hs1) → hs1 ≡ₚ hs2 →
  header_parts hs1 l = header_parts hs2 l.
Proof.
  intros Hnd Hp. induction l as [|h l IH]; simpl; [done|].
  by rewrite (headers_get_perm hs1 hs2 h Hnd Hp), IH.
Qed.

(** C4 (as amended): the key is the MD5 of the JSON list of the service,
    the path, the query string as it was received, and the listed
    headers' values in the order of the list.  It does not depend on the
    order in which the request carries its headers (of distinct names);
    the dispatcher lists no header, so there the key is a function of
    service, path and raw query string alone.  The query string is not
    normalised. *)
Theorem cache_key_deterministic (req1 req2 : Request) (service path : string)
    (hs : option (list string)) :
  query_string req1 = query_string req2 →
  NoDup ((λ kv, lower (fst kv)) <$> req_headers req1) →
  req_headers req1 ≡ₚ req_headers req2 →
  get_cache_key req1 service path (query_string req1) hs
  = get_cache_key req2 service path (query_string req2) hs
  ∧ (∀ req3 : Request, query_string req3 = query_string req1 →
       get_cache_key req3 service path (query_string req3) None
       = get_cache_key req1 service path (query_string req1) None)
  ∧ get_cache_key req1 service path (query_string req1) None
    = "apigw:" +:+ MD5.hexdigest (encode (json_dumps [service; path; query_string req1])).
Proof.
  intros Hq Hnd Hp. split; [|split].
  - unfold get_cache_key, cache_key_parts. rewrite Hq. destruct hs as [l|]; [|done].
    by rewrite (header_parts_perm _ _ l Hnd Hp).
  - intros req3 H3. unfold get_cache_key, cache_key_parts. by rewrite H3.
  - done.
Qed.

Lemma cache_key_deterministic_witness :
  let req1 := mkRequest "GET" [("Accept", "text/html"); ("Accept-Language", "en")]
                "10.0.0.1" "a=1&b=2" [("a", "1"); ("b", "2")] None in
  let req2 := mkRequest "GET" [("Accept-Language", "en"); ("Accept", "text/html")]
                "10.0.0.1" "a=1&b=2" [("a", "1"); ("b", "2")] None in
  get_cache_key req1 "product_service" "products" (query_string req1)
    (Some ["Accept"; "Accept-Language"])
  = get_cache_key req2 "product_service" "products" (query_string req2)
      (Some ["Accept"; "Accept-Language"]).
Proof.
  intros req1 req2.
  refine (proj1 (cache_key_deterministic req1 req2 "product_service" "products"
                   (Some ["Accept"; "Accept-Language"]) _ _ _)).
  - reflexivity.
  - apply (bool_decide_unpack _). reflexivity.
  - apply perm_swap.
Defined.

(** C4, the claim as worded: two GET requests whose query strings hold
    the same parameters in a different order get different keys. *)
Lemma cache_key_query_order_counterexample :
  let req1 := mkRequest "GET" [] "10.0.0.1" "a=1&b=2" [("a", "1"); ("b", "2")] None in
  let req2 := mkRequest "GET" [] "10.0.0.1" "b=2&a=1" [("b", "2"); ("a", "1")] None in
  query_params (query_string req1) ≡ₚ query_params (query_string req2)
  ∧ req_headers req1 = req_headers req2
  ∧ get_cache_key req1 "product_service" "products" (query_string req1) None
    = "apigw:0ebd1613824df65d719230edd42897a2"
  ∧ get_cache_key req2 "product_service" "products" (query_string req2) None
    = "apigw:63c212c3b77d8d26405a19caa4828095"
  ∧ get_cache_key req1 "product_service" "products" (query_string req1) None
    ≠ get_cache_key req2 "product_service" "products" (query_string req2) None.
Proof.
  simpl. split; [apply perm_swap|]. split; [done|].
  split; [vm_compute; reflexivity|]. split; [vm_compute; reflexivity|].
  vm_compute. discriminate.
Qed.

(** ** Backend selection *)

Lemma random_choice_elem (draw : nat) (l : list string) :
  l ≠ [] → ∃ u, random_choice draw l = Some u ∧ u ∈ l.
Proof.
  intros Hne. unfold random_choice.
  assert (Hlt : (draw mod length l < length l)%nat).
  { apply Nat.mod_upper_bound. destruct l; [done|]. simpl. lia. }
  destruct (lookup_lt_is_Some_2 l _ Hlt) as [u Hu]. exists u.
  split; [done|]. by eapply list_elem_of_lookup_2.
Qed.

Lemma random_choice_index (i : nat) (l : list string) (u : string) :
  l !! i = Some u → random_choice i l = Some u.
Proof.
  intros H. unfold random_choice. apply lookup_lt_Some in H as Hlt.
  by rewrite Nat.mod_small.
Qed.

(** C5 (as amended): [get_service_url] knows no health state.  It gives
    none for a service that is not registered or has no endpoint;
    otherwise it gives the registered endpoint at the position drawn, so
    each of the service's endpoints is chosen by exactly the draws that
    hit its position, whatever the state of the backend behind it. *)
Theorem get_service_url_any_endpoint (cfg : ConfigT) (service : string) :
  (services_get (SERVICES cfg) service = None →
     ∀ draw, get_service_url cfg draw service = None)
  ∧ (services_get (SERVICES cfg) service = Some [] →
     ∀ draw, get_service_url cfg draw service = None)
  ∧ (∀ service_urls, services_get (SERVICES cfg) service = Some service_urls →
       service_urls ≠ [] →
       (∀ draw, ∃ u, get_service_url cfg draw service = Some u
                     ∧ u ∈ service_urls
                     ∧ service_urls !! (draw mod length service_urls)%nat = Some u)
       ∧ (∀ i u, service_urls !! i = Some u →
            get_service_url cfg i service = Some u)).
Proof.
  unfold get_service_url. split; [|split].
  - by intros ->.
  - by intros ->.
  - intros service_urls -> Hne. split.
    + intros draw. destruct (random_choice_elem draw service_urls Hne) as (u & Hu & Hin).
      exists u. destruct service_urls; [done|]. by split.
    + intros i u Hi. destruct service_urls; [done|]. by apply random_choice_index.
Qed.

(** C5, the claim as worded: with [user_service] registered at A (port
    8001, healthy) and B (port 8002, unhealthy), a resolution returns B;
    and with both unhealthy a resolution still returns an endpoint. *)
Lemma get_service_url_unhealthy_counterexample :
  let healthy := λ u, String.eqb u "http://localhost:8001" in
  services_get (SERVICES Config) "user_service"
    = Some ["http://localhost:8001"; "http://localhost:8002"]
  ∧ healthy "http://localhost:8002" = false
  ∧ get_service_url Config 1 "user_service" = Some "http://localhost:8002"
  ∧ spec_resolve healthy Config 1 "user_service" = Some "http://localhost:8001"
  ∧ spec_resolve (λ _, false) Config 0 "user_service" = None
  ∧ get_service_url Config 0 "user_service" = Some "http://localhost:8001".
Proof. vm_compute. repeat split. Qed.

(** ** Header lists *)

Lemma same_name_refl (a : string) : same_name a a = true.
Proof. unfold same_name. apply String.eqb_refl. Qed.

Lemma same_name_trans_false (k n m : string) :
  same_name k n = true → same_name n m = false → same_name k m = false.
Proof.
  unfold same_name. intros H1 H2. apply String.eqb_eq in H1. by rewrite H1.
Qed.

Lemma headers_get_remove_ne (hs : Headers) (n m : string) :
  same_name n m = false → headers_get (headers_remove hs n) m = headers_get hs m.
Proof.
  intros Hnm. induction hs as [|[k v] r IH]; simpl; [done|].
  destruct (same_name k n) eqn:E; simpl.
  - by rewrite (same_name_trans_false _ _ _ E Hnm).
  - by rewrite IH.
Qed.

Lemma headers_get_set_eq (hs : Headers) (n v : string) :
  headers_get (headers_set hs n v) n = Some v.
Proof.
  induction hs as [|[k v0] r IH]; simpl.
  - by rewrite same_name_refl.
  - destruct (same_name k n) eqn:E; simpl.
    + by rewrite same_name_refl.
    + by rewrite E.
Qed.

Lemma headers_get_set_ne (hs : Headers) (n v m : string) :
  same_name n m = false → headers_get (headers_set hs n v) m = headers_get hs m.
Proof.
  intros Hnm. induction hs as [|[k v0] r IH]; simpl.
  - by rewrite Hnm.
  - destruct (same_name k n) eqn:E; simpl.
    + rewrite Hnm, (same_name_trans_false _ _ _ E Hnm).
      by apply headers_get_remove_ne.
    + by rewrite IH.
Qed.

Lemma headers_remove_names (hs : Headers) (n k v : string) :
  (k, v) ∈ headers_remove hs n → (k, v) ∈ hs.
Proof.
  unfold headers_remove. intros H. apply list_elem_of_In in H.
  apply filter_In in H as [H _]. by apply list_elem_of_In.
Qed.

Lemma headers_set_elem (hs : Headers) (n v k w : string) :
  (k, w) ∈ headers_set hs n v → (k, w) = (n, v) ∨ (k, w) ∈ hs.
Proof.
  induction hs as [|[k0 v0] r IH]; simpl.
  - intros H. apply list_elem_of_singleton in H. by left.
  - destruct (same_name k0 n).
    + intros H. apply elem_of_cons in H as [H|H]; [by left|].
      right. apply list_elem_of_further. by eapply headers_remove_names.
    + intros H. apply elem_of_cons in H as [H|H].
      * right. rewrite H. apply list_elem_of_here.
      * destruct (IH H) as [?|?]; [by left|right; by apply list_elem_of_further].
Qed.

(** ** The forwarder's header lists *)

Lemma prepare_headers_lookup (rh : Headers) (hs : list string)
    (acc : gmap string string) (name : string) :
  prepare_headers rh hs acc !! name =
  if decide (name ∈ hs) then
    match headers_get rh name with
    | Some v => if String.eqb v "" then acc !! name else Some v
    | None => acc !! name
    end
  else acc !! name.
Proof.
  revert acc. induction hs as [|header r IH]; intros acc; cbn [prepare_headers].
  - destruct (decide (name ∈ [])) as [H|_]; [by apply elem_of_nil in H|done].
  - assert (Hstep : ∀ acc' : gmap string string,
              (name = header →
               acc' !! name = match headers_get rh name with
                              | Some v => if String.eqb v "" then acc !! name else Some v
                              | None => acc !! name
                              end) →
              (name ≠ header → acc' !! name = acc !! name) →
              prepare_headers rh r acc' !! name =
              if decide (name ∈ header :: r) then
                match headers_get rh name with
                | Some v => if String.eqb v "" then acc !! name else Some v
                | None => acc !! name
                end
              else acc !! name).
    { intros acc' Heq Hne. rewrite IH.
      destruct (decide (name = header)) as [->|Hn].
      - destruct (decide (header ∈ header :: r)) as [_|Hx];
          [|exfalso; apply Hx, list_elem_of_here].
        specialize (Heq eq_refl). rewrite Heq.
        destruct (decide (header ∈ r)); [|done].
        destruct (headers_get rh header) as [v|]; [|done]. by destruct (String.eqb v "").
      - rewrite (Hne Hn). destruct (decide (name ∈ r)) as [Hin|Hnin].
        + rewrite decide_True; [done|by apply list_elem_of_further].
        + rewrite decide_False; [done|]. intros H. apply elem_of_cons in H. tauto. }
    destruct (headers_get rh header) as [value|] eqn:E.
    + destruct (String.eqb value "") eqn:Ev.
      * apply Hstep; [|done]. intros ->. by rewrite E, Ev.
      * apply Hstep.
        -- intros ->. by rewrite E, Ev, lookup_insert_eq.
        -- intros Hn. by rewrite lookup_insert_ne.
    + apply Hstep; [|done]. intros ->. by rewrite E.
Qed.

Lemma copy_response_headers_elem (upstream : Headers) (l : list string)
    (r : Response) (name value : string) :
  (name, value) ∈
    headers (fold_left
               (λ acc header,
                  match headers_get upstream header with
                  | Some v => set_header acc header v
                  | None => acc
                  end) l r) →
  (name, value) ∈ headers r
  ∨ (name ∈ l ∧ headers_get upstream name = Some value).
Proof.
  revert r. induction l as [|h l IH]; intros r; simpl; [by left|].
  intros H. apply IH in H as [H|[Hin Hget]].
  - destruct (headers_get upstream h) as [v|] eqn:E; [|by left].
    simpl in H. apply headers_set_elem in H as [[= -> ->]|H]; [|by left].
    right. split; [apply list_elem_of_here|done].
  - right. split; [by apply list_elem_of_further|done].
Qed.

(** C8 (as amended): the headers of the upstream request are
    [X-Gateway-Source] and, for each listed header that the inbound
    request carries with a non-empty value, that header with that value;
    nothing else.  Every header of the gateway's response bears one of
    the four safe names, with the upstream response's value for it (or
    the default content type when the upstream response names none);
    body and status are the upstream's. *)
Theorem forwarder_header_allow_lists (req : Request)
    (service_url path method : string) (hs : list string) (payload : option json)
    (params : list (string * string)) (response : UpstreamResponse) :
  (∀ name : string,
     up_headers (upstream_request req service_url path method hs payload params) !! name =
     if decide (name = "X-Gateway-Source") then Some "api-gateway"
     else if decide (name ∈ hs) then
       match headers_get (req_headers req) name with
       | Some v => if String.eqb v "" then None else Some v
       | None => None
       end
     else None)
  ∧ (∀ name value : string,
       (name, value) ∈ headers (gateway_response response) →
       name ∈ safe_response_headers
       ∧ (headers_get (up_response_headers response) name = Some value
          ∨ (name = "Content-Type" ∧ value = "application/json"
             ∧ headers_get (up_response_headers response) "Content-Type" = None)))
  ∧ data (gateway_response response) = BRaw (content response)
  ∧ status_code (gateway_response response) = up_status_code response.
Proof.
  split; [|split; [|split]].
  - intros name. simpl. destruct (decide (name = "X-Gateway-Source")) as [->|Hn].
    + by rewrite lookup_insert_eq.
    + rewrite lookup_insert_ne by done. rewrite prepare_headers_lookup.
      rewrite lookup_empty. destruct (decide (name ∈ hs)); [|done].
      destruct (headers_get (req_headers req) name) as [v|]; [|done].
      by destruct (String.eqb v "").
  - intros name value H. unfold gateway_response, copy_response_headers in H.
    apply copy_response_headers_elem in H as [H|[Hin Hget]].
    + simpl in H. apply list_elem_of_singleton in H as [= -> ->].
      split; [apply list_elem_of_here|].
      destruct (headers_get (up_response_headers response) "Content-Type"); simpl;
        [by left|by right].
    + split; [done|by left].
  - unfold gateway_response, copy_response_headers. simpl.
    repeat (destruct (headers_get (up_response_headers response) _)); done.
  - unfold gateway_response, copy_response_headers. simpl.
    repeat (destruct (headers_get (up_response_headers response) _)); done.
Qed.

(** C8, the claim as worded: [Accept] is on the list and present on the
    inbound request, with an empty value, and is not forwarded. *)
Lemma forwarder_empty_header_counterexample :
  let req := mkRequest "GET" [("Accept", ""); ("X-API-Key", "test-api-key")]
               "10.0.0.1" "" [] None in
  let hs := ["Authorization"; "Accept"; "Accept-Language"] in
  "Accept" ∈ hs
  ∧ headers_get (req_headers req) "Accept" = Some ""
  ∧ up_headers (upstream_request req "http://localhost:8011" "products" "GET" hs None [])
      !! "Accept" = None
  ∧ up_headers (upstream_request req "http://localhost:8011" "products" "GET" hs None [])
    = {[ "X-Gateway-Source" := "api-gateway" ]}.
Proof.
  simpl. split; [set_solver|]. split; [done|]. split; vm_compute; reflexivity.
Qed.

(** ** The route *)

Lemma require_api_key_pass (cfg : ConfigT) (req : Request)
    (f : Gateway → Gateway * res view_rv) (g : Gateway) :
  authenticated cfg req = true → require_api_key cfg req f g = f g.
Proof.
  unfold authenticated, require_api_key.
  destruct (headers_get (req_headers req) "X-API-Key") as [k|]; [|done].
  destruct (String.eqb k ""); [done|]. simpl. by intros ->.
Qed.

Lemma require_api_key_fail (cfg : ConfigT) (req : Request)
    (f : Gateway → Gateway * res view_rv) (g : Gateway) :
  authenticated cfg req = false → require_api_key cfg req f g = (g, Ok unauthorized).
Proof.
  unfold authenticated, require_api_key.
  destruct (headers_get (req_headers req) "X-API-Key") as [k|]; [|done].
  destruct (String.eqb k ""); [done|]. simpl. by intros ->.
Qed.

Lemma authenticated_client_id (cfg : ConfigT) (req : Request) :
  authenticated cfg req = true → client_id req = API_KEY cfg.
Proof.
  unfold authenticated, client_id.
  destruct (headers_get (req_headers req) "X-API-Key") as [k|]; [|done].
  intros H. apply andb_true_iff in H as [_ H]. by apply String.eqb_eq in H.
Qed.

(** ** Error statuses *)

Lemma method_is_not_get (m : string) :
  String.eqb m "POST" || String.eqb m "PUT" || String.eqb m "PATCH"
  || String.eqb m "DELETE" = true →
  String.eqb m "GET" = false.
Proof.
  destruct (String.eqb m "GET") eqn:E; [|done]. apply String.eqb_eq in E as ->. done.
Qed.

(** C6 (as amended): for a service that is not in the registry the
    dispatcher returns the 404 "not found" envelope; the forwarder
    returns that same 404 envelope, not 503, when the registry gives no
    backend address (service not registered, or registered without
    endpoints), and the 503 "Service unavailable" envelope when the
    upstream call fails with a [RequestException]; for POST, PUT, PATCH
    and DELETE the dispatcher returns what the forwarder returned. *)
Theorem error_status_taxonomy (json_loads : bytes → res json) (cfg : ConfigT)
    (env : Env) (req : Request) (service path : string) (c : SimpleCache) :
  (services_get (SERVICES cfg) service = None →
     api_gateway json_loads cfg env req service path c
     = (c, Ok (service_not_found service)))
  ∧ (∀ method hs payload params,
       get_service_url cfg (draw env) service = None →
       forward_request cfg env req service path method hs payload params
       = Ok (service_not_found service))
  ∧ (∀ method hs payload params u msg,
       get_service_url cfg (draw env) service = Some u → u ≠ "" →
       requests_request env (upstream_request req u path method hs payload params)
       = Raise (RequestException msg) →
       forward_request cfg env req service path method hs payload params
       = Ok (service_unavailable msg))
  ∧ (is_Some (services_get (SERVICES cfg) service) →
     String.eqb (req_method req) "POST" || String.eqb (req_method req) "PUT"
     || String.eqb (req_method req) "PATCH" = true →
     api_gateway json_loads cfg env req service path c
     = (c, forward_request cfg env req service path (req_method req)
             ["Authorization"; "Content-Type"] (get_json req) []))
  ∧ (is_Some (services_get (SERVICES cfg) service) →
     req_method req = "DELETE" →
     api_gateway json_loads cfg env req service path c
     = (c, forward_request cfg env req service path "DELETE" ["Authorization"] None []))
  ∧ status_code (make_response (service_not_found service)) = 404
  ∧ (∀ msg, status_code (make_response (service_unavailable msg)) = 503).
Proof.
  split; [|split; [|split; [|split; [|split; [|split]]]]]; try done.
  - intros H. unfold api_gateway. by rewrite H.
  - intros method hs payload params H. unfold forward_request. by rewrite H.
  - intros method hs payload params u msg Hu Hne Hr. unfold forward_request.
    rewrite Hu. destruct (String.eqb u "") eqn:E.
    + by apply String.eqb_eq in E.
    + by rewrite Hr.
  - intros [urls Hs] Hm. unfold api_gateway. rewrite Hs.
    rewrite method_is_not_get by (by rewrite Hm). simpl. by rewrite Hm.
  - intros [urls Hs] Hm. unfold api_gateway. rewrite Hs, Hm. done.
Qed.

Lemma error_status_taxonomy_witness :
  forward_request Config env_down (sample_request "POST" "test-api-key")
    "user_service" "users" "POST" ["Authorization"; "Content-Type"] None []
  = Ok (service_unavailable "connection refused").
Proof.
  destruct (error_status_taxonomy sample_loads Config env_down
              (sample_request "POST" "test-api-key") "user_service" "users" [])
    as (_ & _ & H & _).
  apply (H "POST" ["Authorization"; "Content-Type"] None [] "http://localhost:8001").
  - reflexivity.
  - discriminate.
  - reflexivity.
Defined.

(** C6, the claim as worded: a service that is registered but has no
    endpoint is answered with the 404 envelope, not with 503. *)
Lemma error_status_counterexample :
  let cfg := mkConfig "test-api-key" true 300 true 60 100 [("user_service", [])] in
  let req := sample_request "POST" "test-api-key" in
  services_get (SERVICES cfg) "user_service" = Some []
  ∧ api_gateway sample_loads cfg env_down req "user_service" "users" []
    = ([], Ok (service_not_found "user_service"))
  ∧ status_code (make_response (service_not_found "user_service")) = 404.
Proof. vm_compute. repeat split. Qed.

(** Two further facts about error envelopes: the limiter returns the
    response object alone, so the status of a tuple is lost on the way
    out; and the GET branch reads [status_code] off the forwarder's
    error tuple. *)
Lemma proxy_route_drops_status :
  ∃ g v, proxy_route sample_loads Config env_down
           (sample_request "POST" "test-api-key") "no_such_service" "x"
           (mkGateway ∅ []) = (g, Ok v)
         ∧ data (make_response v)
           = BJson (JDict [("error", JStr "Service no_such_service not found")])
         ∧ status_code (make_response v) = 200.
Proof. eexists _, _. vm_compute. repeat split. Qed.

Lemma api_gateway_get_error_raises :
  api_gateway sample_loads Config env_down (sample_request "GET" "test-api-key")
    "user_service" "users" []
  = ([], Raise AttributeError).
Proof. vm_compute. reflexivity. Qed.

(** ** Rate-limit headers *)

Lemma rate_limit_headers_get (cfg : ConfigT) (t c : Z) (r : Response) :
  headers_get (headers (rate_limit_headers cfg t c r)) "X-RateLimit-Limit"
  = Some (str (RATE_LIMIT_MAX_REQUESTS cfg))
  ∧ headers_get (headers (rate_limit_headers cfg t c r)) "X-RateLimit-Remaining"
    = Some (str (RATE_LIMIT_MAX_REQUESTS cfg - c - 1))
  ∧ headers_get (headers (rate_limit_headers cfg t c r)) "X-RateLimit-Reset"
    = Some (str (t + RATE_LIMIT_WINDOW cfg)).
Proof.
  unfold rate_limit_headers, set_header. simpl. split; [|split].
  - rewrite !headers_get_set_ne by reflexivity. apply headers_get_set_eq.
  - rewrite headers_get_set_ne by reflexivity. apply headers_get_set_eq.
  - apply headers_get_set_eq.
Qed.

Lemma rate_limit_headers_keeps (cfg : ConfigT) (t c : Z) (r : Response) :
  data (rate_limit_headers cfg t c r) = data r
  ∧ status_code (rate_limit_headers cfg t c r) = status_code r.
Proof. done. Qed.

(** C7 (as amended): the limiter sets [X-RateLimit-Limit],
    [X-RateLimit-Remaining] and [X-RateLimit-Reset] on every response the
    handler returns after the request has passed the key check and been
    accepted by the limiter: the cache hit, the forwarded response and
    the error envelopes.  The 401 of the key check and the 429 of the
    limiter carry their content type and no rate-limit header. *)
Theorem rate_limit_headers_on_accepted (json_loads : bytes → res json)
    (cfg : ConfigT) (env : Env) (req : Request) (service path : string)
    (g : Gateway) :
  RATE_LIMIT_ENABLED cfg = true →
  (∀ (c : Z) (g' : Gateway) (v : view_rv),
     authenticated cfg req = true →
     (rate_limit_check cfg (rate_limits g) (client_id req) (now env)).2
     = Ok (RlAccept c) →
     proxy_route json_loads cfg env req service path g = (g', Ok v) →
     headers_get (headers (make_response v)) "X-RateLimit-Limit"
     = Some (str (RATE_LIMIT_MAX_REQUESTS cfg))
     ∧ headers_get (headers (make_response v)) "X-RateLimit-Remaining"
       = Some (str (RATE_LIMIT_MAX_REQUESTS cfg - c - 1))
     ∧ headers_get (headers (make_response v)) "X-RateLimit-Reset"
       = Some (str (now env + RATE_LIMIT_WINDOW cfg)))
  ∧ (authenticated cfg req = false →
     ∃ v, proxy_route json_loads cfg env req service path g = (g, Ok v)
          ∧ status_code (make_response v) = 401
          ∧ headers (make_response v) = [("Content-Type", "application/json")])
  ∧ (authenticated cfg req = true →
     is_reject (rate_limit_check cfg (rate_limits g) (client_id req) (now env)).2 = true →
     ∃ v, (proxy_route json_loads cfg env req service path g).2 = Ok v
          ∧ status_code (make_response v) = 429
          ∧ headers (make_response v) = [("Content-Type", "application/json")]).
Proof.
  intros Hen. split; [|split].
  - intros c g' v Hauth Hacc. unfold proxy_route.
    rewrite require_api_key_pass by done. unfold rate_limit. rewrite Hen. simpl.
    destruct (rate_limit_check cfg (rate_limits g) (client_id req) (now env))
      as [rl d]. simpl in Hacc. subst d.
    destruct (api_gateway json_loads cfg env req service path (cache g)) as [c' [rv|e]];
      simpl; [|done].
    intros [= <- <-]. simpl. apply rate_limit_headers_get.
  - intros Hauth. unfold proxy_route. rewrite require_api_key_fail by done.
    by eexists.
  - intros Hauth Hrej. unfold proxy_route.
    rewrite require_api_key_pass by done. unfold rate_limit. rewrite Hen. simpl.
    destruct (rate_limit_check cfg (rate_limits g) (client_id req) (now env))
      as [rl [[ra|c]|e]]; simpl in Hrej; try done.
    simpl. by eexists.
Qed.

Lemma rate_limit_headers_on_accepted_witness :
  let env := env_up [Byte.x7b; Byte.x7d] 200 [("Content-Type", "application/json")] in
  let v := (proxy_route sample_loads Config env (sample_request "GET" "test-api-key")
              "product_service" "products" (mkGateway ∅ [])).2 in
  ∃ r, v = Ok r
       ∧ headers_get (headers (make_response r)) "X-RateLimit-Remaining" = Some "99".
Proof.
  intros env v.
  destruct (rate_limit_headers_on_accepted sample_loads Config env
              (sample_request "GET" "test-api-key") "product_service" "products"
              (mkGateway ∅ []) eq_refl) as (H & _).
  destruct (proxy_route sample_loads Config env (sample_request "GET" "test-api-key")
              "product_service" "products" (mkGateway ∅ [])) as [g' [r|e]] eqn:E.
  - exists r. split; [reflexivity|].
    destruct (H 0 g' r eq_refl eq_refl eq_refl) as (_ & Hrem & _). exact Hrem.
  - vm_compute in E. discriminate E.
Defined.

(** C7, the claim as worded: the 401 for a missing key and the 429 for
    the request over the limit bear none of the three headers. *)
Lemma rate_limit_headers_counterexample :
  let no_key := mkRequest "GET" [] "10.0.0.1" "" [] None in
  let full := mkGateway {[ "test-api-key" := repeat 990 100 ]} [] in
  let r401 := proxy_route sample_loads Config env_down no_key
                "product_service" "products" (mkGateway ∅ []) in
  let r429 := proxy_route sample_loads Config env_down
                (sample_request "GET" "test-api-key") "product_service" "products" full in
  (∃ v, r401.2 = Ok v
        ∧ status_code (make_response v) = 401
        ∧ headers_get (headers (make_response v)) "X-RateLimit-Limit" = None
        ∧ headers_get (headers (make_response v)) "X-RateLimit-Remaining" = None
        ∧ headers_get (headers (make_response v)) "X-RateLimit-Reset" = None)
  ∧ (∃ v, r429.2 = Ok v
          ∧ status_code (make_response v) = 429
          ∧ headers_get (headers (make_response v)) "X-RateLimit-Limit" = None
          ∧ headers_get (headers (make_response v)) "X-RateLimit-Remaining" = None
          ∧ headers_get (headers (make_response v)) "X-RateLimit-Reset" = None).
Proof. split; eexists; vm_compute; repeat split. Qed.

(** ** Caching of GET responses *)

Lemma gateway_response_status (response : UpstreamResponse) :
  status_code (gateway_response response) = up_status_code response
  ∧ data (gateway_response response) = BRaw (content response).
Proof.
  unfold gateway_response, copy_response_headers. simpl.
  repeat (destruct (headers_get (up_response_headers response) _)); done.
Qed.

(** A GET for a registered service that misses the cache and whose
    upstream call answers 200 reaches the caching block with the
    forwarder's response. *)
Lemma api_gateway_get_reaches_cache_store (json_loads : bytes → res json)
    (cfg : ConfigT) (env : Env) (req : Request) (service path u : string)
    (c : SimpleCache) (response : UpstreamResponse) :
  req_method req = "GET" → CACHE_ENABLED cfg = true →
  cache_get (now env) c (get_cache_key req service path (query_string req) None) = None →
  get_service_url cfg (draw env) service = Some u → u ≠ "" →
  requests_request env
    (upstream_request req u path "GET" ["Authorization"; "Accept"; "Accept-Language"]
       None (args req)) = Ok response →
  up_status_code response = 200 →
  api_gateway json_loads cfg env req service path c
  = cache_store json_loads cfg env req service path c (gateway_response response).
Proof.
  intros Hm Hce Hmiss Hu Hne Hr Hs. unfold api_gateway.
  assert (Hreg : is_Some (services_get (SERVICES cfg) service)).
  { unfold get_service_url in Hu. by destruct (services_get (SERVICES cfg) service). }
  destruct Hreg as [urls ->]. rewrite Hm, Hce. simpl. rewrite Hmiss.
  unfold api_gateway_get, forward_request. rewrite Hu.
  destruct (String.eqb u "") eqn:E; [by apply String.eqb_eq in E|].
  rewrite Hr, Hce. destruct (gateway_response_status response) as [-> _].
  by rewrite Hs.
Qed.

(** When [json.loads] reports malformed JSON (or a type error), nothing
    is cached and the forwarder's response is returned as it is. *)
Lemma cache_failure_json_error_passes (json_loads : bytes → res json)
    (cfg : ConfigT) (env : Env) (req : Request) (service path u : string)
    (c : SimpleCache) (response : UpstreamResponse) :
  req_method req = "GET" → CACHE_ENABLED cfg = true →
  cache_get (now env) c (get_cache_key req service path (query_string req) None) = None →
  get_service_url cfg (draw env) service = Some u → u ≠ "" →
  requests_request env
    (upstream_request req u path "GET" ["Authorization"; "Accept"; "Accept-Language"]
       None (args req)) = Ok response →
  up_status_code response = 200 →
  json_loads (content response) = Raise JSONDecodeError
  ∨ json_loads (content response) = Raise TypeError →
  api_gateway json_loads cfg env req service path c
  = (c, Ok (RvResponse (gateway_response response)))
  ∧ data (gateway_response response) = BRaw (content response)
  ∧ status_code (gateway_response response) = 200.
Proof.
  intros Hm Hce Hmiss Hu Hne Hr Hs Hj.
  rewrite (api_gateway_get_reaches_cache_store _ _ _ _ _ _ u _ response) by done.
  destruct (gateway_response_status response) as [Hst Hd].
  split; [|split; [done|by rewrite Hst]].
  unfold cache_store, loads_data. rewrite Hd. by destruct Hj as [-> | ->].
Qed.

Lemma cache_failure_json_error_passes_witness :
  let page := [Byte.x3c; Byte.x70; Byte.x3e] in
  api_gateway sample_loads Config (env_up page 200 [("Content-Type", "text/html")])
    (sample_request "GET" "test-api-key") "product_service" "products" []
  = ([], Ok (RvResponse
               (gateway_response (mkUpstreamResponse page 200 [("Content-Type", "text/html")])))).
Proof.
  intros page.
  refine (proj1 (cache_failure_json_error_passes sample_loads Config
                   (env_up page 200 [("Content-Type", "text/html")])
                   (sample_request "GET" "test-api-key") "product_service" "products"
                   "http://localhost:8011" []
                   (mkUpstreamResponse page 200 [("Content-Type", "text/html")])
                   _ _ _ _ _ _ _ _)); try reflexivity.
  - discriminate.
  - left. reflexivity.
Defined.

(** C9 fails on a body that cannot even be decoded: [json.loads] then
    raises [UnicodeDecodeError], which the [except] clause does not
    list, and the exception leaves the handler in place of the
    response. *)
Theorem cache_failure_decode_error_escapes (json_loads : bytes → res json)
    (cfg : ConfigT) (env : Env) (req : Request) (service path u : string)
    (c : SimpleCache) (response : UpstreamResponse) :
  req_method req = "GET" → CACHE_ENABLED cfg = true →
  cache_get (now env) c (get_cache_key req service path (query_string req) None) = None →
  get_service_url cfg (draw env) service = Some u → u ≠ "" →
  requests_request env
    (upstream_request req u path "GET" ["Authorization"; "Accept"; "Accept-Language"]
       None (args req)) = Ok response →
  up_status_code response = 200 →
  json_loads (content response) = Raise UnicodeDecodeError →
  api_gateway json_loads cfg env req service path c = (c, Raise UnicodeDecodeError).
Proof.
  intros Hm Hce Hmiss Hu Hne Hr Hs Hj.
  rewrite (api_gateway_get_reaches_cache_store _ _ _ _ _ _ u _ response) by done.
  destruct (gateway_response_status response) as [_ Hd].
  unfold cache_store, loads_data. by rewrite Hd, Hj.
Qed.

Lemma cache_failure_decode_error_escapes_witness :
  api_gateway sample_loads Config
    (env_up [Byte.xff] 200 [("Content-Type", "application/octet-stream")])
    (sample_request "GET" "test-api-key") "product_service" "products" []
  = ([], Raise UnicodeDecodeError).
Proof.
  refine (cache_failure_decode_error_escapes sample_loads Config
            (env_up [Byte.xff] 200 [("Content-Type", "application/octet-stream")])
            (sample_request "GET" "test-api-key") "product_service" "products"
            "http://localhost:8011" []
            (mkUpstreamResponse [Byte.xff] 200 [("Content-Type", "application/octet-stream")])
            _ _ _ _ _ _ _ _); try reflexivity.
  discriminate.
Defined.

(** ** One window for all authenticated callers *)

Lemma rate_limit_check_store (cfg : ConfigT) (rl : gmap string (list Z))
    (cid : string) (t : Z) :
  ∃ w, (rate_limit_check cfg rl cid t).1 = <[cid := w]> rl.
Proof.
  rewrite rate_limit_check_unfold. simpl. destruct (_ <=? _); by eexists.
Qed.

Lemma rate_limit_store_enabled (cfg : ConfigT) (env : Env) (req : Request)
    (f : SimpleCache → SimpleCache * res view_rv) (g : Gateway) :
  RATE_LIMIT_ENABLED cfg = true →
  ∃ w, rate_limits (rate_limit cfg env req f g).1
       = <[client_id req := w]> (rate_limits g).
Proof.
  intros Hen. unfold rate_limit. rewrite Hen. simpl.
  destruct (rate_limit_check_store cfg (rate_limits g) (client_id req) (now env))
    as [w Hw].
  destruct (rate_limit_check cfg (rate_limits g) (client_id req) (now env))
    as [rl [[ra|c]|e]]; simpl in Hw; subst rl; try (by exists w).
  destruct (f (cache g)). by exists w.
Qed.

Lemma rate_limit_store_disabled (cfg : ConfigT) (env : Env) (req : Request)
    (f : SimpleCache → SimpleCache * res view_rv) (g : Gateway) :
  RATE_LIMIT_ENABLED cfg = false →
  rate_limits (rate_limit cfg env req f g).1 = rate_limits g.
Proof.
  intros Hen. unfold rate_limit. rewrite Hen. simpl. by destruct (f (cache g)).
Qed.

Lemma proxy_route_single_window (json_loads : bytes → res json) (cfg : ConfigT)
    (env : Env) (req : Request) (service path : string) (g : Gateway) :
  dom (rate_limits g) ⊆ ({[ API_KEY cfg ]} : gset string) →
  dom (rate_limits (proxy_route json_loads cfg env req service path g).1)
  ⊆ ({[ API_KEY cfg ]} : gset string).
Proof.
  intros Hg. unfold proxy_route.
  destruct (authenticated cfg req) eqn:Hauth.
  - rewrite require_api_key_pass by done.
    destruct (RATE_LIMIT_ENABLED cfg) eqn:Hen.
    + destruct (rate_limit_store_enabled cfg env req
                  (api_gateway json_loads cfg env req service path) g Hen) as [w ->].
      rewrite dom_insert_L, (authenticated_client_id _ _ Hauth).
      apply union_least; [done|exact Hg].
    + by rewrite rate_limit_store_disabled.
  - by rewrite require_api_key_fail.
Qed.

Lemma serve_single_window (json_loads : bytes → res json) (cfg : ConfigT)
    (calls : list Call) (g : Gateway) :
  dom (rate_limits g) ⊆ ({[ API_KEY cfg ]} : gset string) →
  dom (rate_limits (serve json_loads cfg calls g)) ⊆ ({[ API_KEY cfg ]} : gset string).
Proof.
  revert g. induction calls as [|c r IH]; intros g Hg; simpl; [done|].
  apply IH. by apply proxy_route_single_window.
Qed.

Lemma serve_snoc (json_loads : bytes → res json) (cfg : ConfigT)
    (calls : list Call) (c : Call) (g : Gateway) :
  serve json_loads cfg (calls ++ [c]) g
  = (proxy_route json_loads cfg (call_env c) (call_req c) (call_service c)
       (call_path c) (serve json_loads cfg calls g)).1.
Proof.
  revert g. induction calls as [|c0 r IH]; intros g; simpl; [done|]. apply IH.
Qed.

(** C10: a request that passes the key check carries the configured key,
    so its client identifier is that key whatever its source address;
    the limiter therefore treats any two authenticated requests alike,
    and [rate_limits], filled only behind the key check, never holds a
    window under another identifier: after any sequence of requests it
    has at most the one entry, and exactly that one once an
    authenticated request has reached the enabled limiter. *)
Theorem authenticated_traffic_shares_window (json_loads : bytes → res json)
    (cfg : ConfigT) :
  (∀ req : Request, authenticated cfg req = true → client_id req = API_KEY cfg)
  ∧ (∀ (env : Env) (req1 req2 : Request)
       (f : SimpleCache → SimpleCache * res view_rv) (g : Gateway),
       authenticated cfg req1 = true → authenticated cfg req2 = true →
       rate_limit cfg env req1 f g = rate_limit cfg env req2 f g)
  ∧ (∀ calls : list Call,
       dom (rate_limits (serve json_loads cfg calls (mkGateway ∅ [])))
       ⊆ ({[ API_KEY cfg ]} : gset string))
  ∧ (∀ (calls : list Call) (c : Call),
       RATE_LIMIT_ENABLED cfg = true → authenticated cfg (call_req c) = true →
       dom (rate_limits (serve json_loads cfg (calls ++ [c]) (mkGateway ∅ [])))
       = ({[ API_KEY cfg ]} : gset string)).
Proof.
  assert (H0 : dom (rate_limits (mkGateway ∅ [])) ⊆ ({[ API_KEY cfg ]} : gset string)).
  { simpl. rewrite dom_empty_L. apply empty_subseteq. }
  split; [|split; [|split]].
  - apply authenticated_client_id.
  - intros env req1 req2 f g H1 H2. unfold rate_limit.
    by rewrite (authenticated_client_id _ _ H1), (authenticated_client_id _ _ H2).
  - intros calls. by apply serve_single_window.
  - intros calls c Hen Hauth. rewrite serve_snoc.
    set (g1 := serve json_loads cfg calls (mkGateway ∅ [])).
    assert (Hg1 : dom (rate_limits g1) ⊆ ({[ API_KEY cfg ]} : gset string))
      by (by apply serve_single_window).
    unfold proxy_route. rewrite require_api_key_pass by done.
    destruct (rate_limit_store_enabled cfg (call_env c) (call_req c)
                (api_gateway json_loads cfg (call_env c) (call_req c)
                   (call_service c) (call_path c)) g1 Hen) as [w ->].
    rewrite dom_insert_L, (authenticated_client_id _ _ Hauth).
    apply (anti_symm (⊆)).
    + apply union_least; [done|exact Hg1].
    + apply union_subseteq_l.
Qed.

(** One hundred requests with the key from one address fill the window;
    the next request with the key, from another address, is refused. *)
Lemma authenticated_traffic_shares_window_witness :
  let first := mkRequest "GET" [("X-API-Key", "test-api-key")] "10.0.0.1" "" [] None in
  let other := mkRequest "GET" [("X-API-Key", "test-api-key")] "10.0.0.2" "" [] None in
  client_id first = client_id other
  ∧ ∀ (f : SimpleCache → SimpleCache * res view_rv) (g : Gateway),
      rate_limit Config env_down first f g = rate_limit Config env_down other f g.
Proof.
  intros first other.
  destruct (authenticated_traffic_shares_window sample_loads Config) as (H1 & H2 & _).
  split.
  - rewrite (H1 first eq_refl), (H1 other eq_refl). reflexivity.
  - intros f g. apply H2; reflexivity.
Defined.

(** One hundred requests with the key from one address fill the window;
    the next request with the key, from another address, is refused. *)
Example limit_is_global :
  let first := mkRequest "POST" [("X-API-Key", "test-api-key")] "10.0.0.1" "" [] None in
  let other := mkRequest "POST" [("X-API-Key", "test-api-key")] "10.0.0.2" "" [] None in
  let g := serve sample_loads Config
             (repeat (mkCall env_down first "user_service" "users") 100)
             (mkGateway ∅ []) in
  rate_limits g = {[ "test-api-key" := repeat 1000 100 ]}
  ∧ ∃ v, (proxy_route sample_loads Config env_down other "user_service" "users" g).2 = Ok v
         ∧ status_code (make_response v) = 429.
Proof. split; [vm_compute; reflexivity|]. eexists. vm_compute. split; reflexivity. Qed.

(** ** The status of a tuple behind the limiter *)

(** The limiter unpacks a tuple and, its first component being a response
    object, returns that object: the status that came with it is not
    sent. *)
Lemma rate_limit_returns_response_object (cfg : ConfigT) (env : Env) (req : Request)
    (f : SimpleCache → SimpleCache * res view_rv) (g : Gateway)
    (c : Z) (c' : SimpleCache) (o : Response) (status : Z) :
  RATE_LIMIT_ENABLED cfg = true →
  (rate_limit_check cfg (rate_limits g) (client_id req) (now env)).2 = Ok (RlAccept c) →
  f (cache g) = (c', Ok (RvTuple2 o status)) →
  ∃ v, (rate_limit cfg env req f g).2 = Ok v
       ∧ status_code (make_response v) = status_code o
       ∧ data (make_response v) = data o.
Proof.
  intros Hen Hacc Hf. unfold rate_limit. rewrite Hen. simpl.
  destruct (rate_limit_check cfg (rate_limits g) (client_id req) (now env)) as [rl d].
  simpl in Hacc. subst d. rewrite Hf. simpl. by eexists.
Qed.

Lemma rate_limit_returns_response_object_witness :
  ∃ v, (rate_limit Config env_down (sample_request "POST" "test-api-key")
          (λ c, (c, Ok (service_not_found "no_such_service"))) (mkGateway ∅ [])).2 = Ok v
       ∧ status_code (make_response v) = 200.
Proof.
  assert (Hacc : (rate_limit_check Config (rate_limits (mkGateway ∅ []))
                    (client_id (sample_request "POST" "test-api-key"))
                    (now env_down)).2 = Ok (RlAccept 0))
    by (vm_compute; reflexivity).
  destruct (rate_limit_returns_response_object Config env_down
              (sample_request "POST" "test-api-key")
              (λ c, (c, Ok (service_not_found "no_such_service"))) (mkGateway ∅ [])
              0 []
              (jsonify (JDict [("error", JStr "Service no_such_service not found")]))
              404 eq_refl Hacc eq_refl) as (v & Hv & Hs & _).
  exists v. split; [exact Hv|exact Hs].
Defined.

(** * Further properties of the limiter *)

Lemma purge_drops_one (a x : Z) (l : list Z) :
  x ∈ l → x ≤ a → (length (purge a l) < length l)%nat.
Proof.
  intros Hin Hx. unfold purge. induction l as [|y l IH]; [by apply elem_of_nil in Hin|].
  rewrite filter_cons. apply elem_of_cons in Hin as [<-|Hin].
  - rewrite decide_False by lia. simpl.
    pose proof (length_filter (λ ts, a < ts) l). lia.
  - specialize (IH Hin). destruct (decide (a < y)); simpl; lia.
Qed.

(** The retry time is honest and, for a window of at most [N] entries,
    exact: after a rejection at [t] with [retry_after = ra], every call
    of that client before [t + ra] is rejected again and leaves the
    store as it is, and the call at [t + ra] is accepted. *)
Theorem retry_after_exact (cfg : ConfigT) (rl rl' : gmap string (list Z))
    (cid : string) (t ra : Z) :
  rate_limit_check cfg rl cid t = (rl', Ok (RlReject ra)) →
  (∀ t' : Z, t ≤ t' < t + ra →
     rate_limit_check cfg rl' cid t' = (rl', Ok (RlReject (ra - (t' - t)))))
  ∧ (Z.of_nat (length (rl !!! cid)) ≤ RATE_LIMIT_MAX_REQUESTS cfg →
     allowed cfg rl' cid (t + ra) = true).
Proof.
  intros Hc.
  apply rate_limit_check_reject_inv in Hc as (HN & -> & m & Hm & ->).
  pose proof Hm as Hm'. apply py_min_spec in Hm' as [Hin Hall].
  assert (Hw : (<[cid := kept cfg rl cid t]> rl) !!! cid = kept cfg rl cid t)
    by apply lookup_total_insert_eq.
  split.
  - intros t' [Ht1 Ht2].
    assert (Hk : kept cfg (<[cid := kept cfg rl cid t]> rl) cid t' = kept cfg rl cid t).
    { unfold kept at 1. rewrite Hw. apply purge_all.
      eapply Forall_impl; [exact Hall|]. simpl. intros ts Hts. lia. }
    rewrite rate_limit_check_unfold. simpl. rewrite Hk, Hm, insert_insert_eq.
    destruct (Z.leb_spec (RATE_LIMIT_MAX_REQUESTS cfg)
                (Z.of_nat (length (kept cfg rl cid t)))); [|lia].
    do 3 f_equal. lia.
  - intros Hlen. unfold allowed. rewrite rate_limit_check_accept; [done|].
    unfold kept at 1. rewrite Hw.
    assert (Hlt : (length (purge (t + (RATE_LIMIT_WINDOW cfg - (t - m))
                                   - RATE_LIMIT_WINDOW cfg) (kept cfg rl cid t))
                   < length (kept cfg rl cid t))%nat).
    { apply (purge_drops_one _ m); [done|lia]. }
    pose proof (purge_length (t - RATE_LIMIT_WINDOW cfg) (rl !!! cid)) as Hp.
    fold (kept cfg rl cid t) in Hp. lia.
Qed.

Lemma retry_after_exact_witness :
  let rl : gmap string (list Z) := {[ "test-api-key" := repeat 7 100 ]} in
  rate_limit_check Config rl "test-api-key" 50 = (rl, Ok (RlReject 17))
  ∧ allowed Config rl "test-api-key" 67 = true.
Proof.
  intros rl.
  destruct (retry_after_exact Config rl rl "test-api-key" 30 37) as [H1 H2].
  - vm_compute. reflexivity.
  - split.
    + exact (H1 50 ltac:(lia)).
    + apply H2. vm_compute. discriminate.
Defined.

(** A client that has been silent for a whole window starts afresh: when
    every stored timestamp is [W] or more seconds old, the call is
    accepted with a count of zero and the window becomes the single
    timestamp [now]. *)
Theorem window_resets_after_silence (cfg : ConfigT) (rl : gmap string (list Z))
    (cid : string) (t : Z) :
  0 < RATE_LIMIT_MAX_REQUESTS cfg →
  Forall (λ ts, ts + RATE_LIMIT_WINDOW cfg ≤ t) (rl !!! cid) →
  rate_limit_check cfg rl cid t = (<[cid := [t]]> rl, Ok (RlAccept 0)).
Proof.
  intros HN Hall.
  assert (Hk : kept cfg rl cid t = []).
  { unfold kept, purge. induction (rl !!! cid) as [|x l IH]; [done|].
    apply Forall_cons in Hall as [Hx Hl]. rewrite filter_cons.
    rewrite decide_False by lia. by apply IH. }
  rewrite rate_limit_check_accept; rewrite Hk; simpl; [done|lia].
Qed.

Lemma window_resets_after_silence_witness :
  rate_limit_check Config {[ "test-api-key" := repeat 7 100 ]} "test-api-key" 67
  = (<["test-api-key" := [67]]> {[ "test-api-key" := repeat 7 100 ]}, Ok (RlAccept 0)).
Proof.
  apply window_resets_after_silence.
  - simpl. lia.
  - rewrite lookup_total_singleton_eq. apply Forall_forall. intros x Hx.
    apply list_elem_of_In, repeat_spec in Hx. subst x. simpl. lia.
Defined.

(** Clients do not affect one another: a call made for one client leaves
    the window of every other client and the decision of its next call
    as they were. *)
Theorem clients_are_isolated (cfg : ConfigT) (rl : gmap string (list Z))
    (a b : string) (t t' : Z) :
  a ≠ b →
  (rate_limit_check cfg rl a t).1 !! b = rl !! b
  ∧ (rate_limit_check cfg (rate_limit_check cfg rl a t).1 b t').2
    = (rate_limit_check cfg rl b t').2
  ∧ (rate_limit_check cfg (rate_limit_check cfg rl a t).1 b t').1 !! b
    = (rate_limit_check cfg rl b t').1 !! b.
Proof.
  intros Hab. destruct (rate_limit_check_store cfg rl a t) as [w ->].
  assert (Hk : kept cfg (<[a := w]> rl) b t' = kept cfg rl b t').
  { unfold kept. by rewrite lookup_total_insert_ne. }
  split; [by rewrite lookup_insert_ne|].
  rewrite !rate_limit_check_unfold. simpl. rewrite Hk.
  destruct (_ <=? _); simpl; by rewrite !lookup_insert_eq.
Qed.

Lemma clients_are_isolated_witness :
  (rate_limit_check Config
     (rate_limit_check Config ∅ "10.0.0.1" 5).1 "10.0.0.2" 6).2
  = (rate_limit_check Config ∅ "10.0.0.2" 6).2.
Proof.
  refine (proj1 (proj2 (clients_are_isolated Config ∅ "10.0.0.1" "10.0.0.2" 5 6 _))).
  discriminate.
Defined.

(** ** What the route stores *)

Lemma rate_limit_rate_limits (cfg : ConfigT) (env : Env) (req : Request)
    (f : SimpleCache → SimpleCache * res view_rv) (g : Gateway) :
  rate_limits (rate_limit cfg env req f g).1 =
  if RATE_LIMIT_ENABLED cfg
  then (rate_limit_check cfg (rate_limits g) (client_id req) (now env)).1
  else rate_limits g.
Proof.
  unfold rate_limit. destruct (RATE_LIMIT_ENABLED cfg); simpl.
  - destruct (rate_limit_check cfg (rate_limits g) (client_id req) (now env))
      as [rl [[ra|c]|e]]; simpl; try done. by destruct (f (cache g)).
  - by destruct (f (cache g)).
Qed.

Lemma proxy_route_rate_limits (json_loads : bytes → res json) (cfg : ConfigT)
    (env : Env) (req : Request) (service path : string) (g : Gateway) :
  rate_limits (proxy_route json_loads cfg env req service path g).1 =
  if authenticated cfg req && RATE_LIMIT_ENABLED cfg
  then (rate_limit_check cfg (rate_limits g) (client_id req) (now env)).1
  else rate_limits g.
Proof.
  unfold proxy_route. destruct (authenticated cfg req) eqn:Hauth; simpl.
  - rewrite require_api_key_pass by done. apply rate_limit_rate_limits.
  - by rewrite require_api_key_fail.
Qed.

Lemma rate_limit_check_bounded (cfg : ConfigT) (rl : gmap string (list Z))
    (cid : string) (t : Z) :
  (∀ c : string,
     Z.of_nat (length (rl !!! c)) ≤ Z.max (RATE_LIMIT_MAX_REQUESTS cfg) 0) →
  ∀ c : string,
    Z.of_nat (length ((rate_limit_check cfg rl cid t).1 !!! c))
    ≤ Z.max (RATE_LIMIT_MAX_REQUESTS cfg) 0.
Proof.
  intros Hb c. rewrite rate_limit_check_unfold. simpl.
  pose proof (purge_length (t - RATE_LIMIT_WINDOW cfg) (rl !!! cid)) as Hp.
  fold (kept cfg rl cid t) in Hp. specialize (Hb cid) as Hcid.
  destruct (Z.leb_spec (RATE_LIMIT_MAX_REQUESTS cfg)
              (Z.of_nat (length (kept cfg rl cid t)))) as [Hle|Hlt]; simpl.
  - destruct (decide (cid = c)) as [->|Hne].
    + rewrite lookup_total_insert_eq. lia.
    + rewrite lookup_total_insert_ne by done. apply Hb.
  - destruct (decide (cid = c)) as [->|Hne].
    + rewrite lookup_total_insert_eq, length_app. simpl. lia.
    + rewrite lookup_total_insert_ne by done. apply Hb.
Qed.

Lemma rate_limit_check_elems (cfg : ConfigT) (rl : gmap string (list Z))
    (cid : string) (t : Z) (P : Z → Prop) :
  (∀ (c : string) (ts : Z), ts ∈ rl !!! c → P ts) → P t →
  ∀ (c : string) (ts : Z), ts ∈ (rate_limit_check cfg rl cid t).1 !!! c → P ts.
Proof.
  intros Hall Ht c ts. rewrite rate_limit_check_unfold. simpl.
  assert (Hk : ∀ x, x ∈ kept cfg rl cid t → P x).
  { intros x Hx. unfold kept, purge in Hx. apply list_elem_of_filter in Hx as [_ Hx].
    by apply (Hall cid). }
  destruct (_ <=? _); simpl.
  - destruct (decide (cid = c)) as [->|Hne].
    + rewrite lookup_total_insert_eq. apply Hk.
    + rewrite lookup_total_insert_ne by done. apply Hall.
  - destruct (decide (cid = c)) as [->|Hne].
    + rewrite lookup_total_insert_eq. intros Hin.
      apply elem_of_app in Hin as [Hin|Hin]; [by apply Hk|].
      apply list_elem_of_singleton in Hin. by subst ts.
    + rewrite lookup_total_insert_ne by done. apply Hall.
Qed.

(** The store stays small: whatever requests the gateway has served
    since it started, it holds at most [N] timestamps per client, and
    each of them is the clock reading of one of those requests. *)
Theorem window_never_exceeds_limit (json_loads : bytes → res json) (cfg : ConfigT)
    (calls : list Call) (cid : string) :
  Z.of_nat (length (rate_limits (serve json_loads cfg calls (mkGateway ∅ [])) !!! cid))
  ≤ Z.max (RATE_LIMIT_MAX_REQUESTS cfg) 0
  ∧ ∀ ts : Z,
      ts ∈ rate_limits (serve json_loads cfg calls (mkGateway ∅ [])) !!! cid →
      ∃ c : Call, c ∈ calls ∧ now (call_env c) = ts.
Proof.
  assert (Hgen : ∀ (P : Z → Prop) (l : list Call) (g : Gateway),
            (∀ c : string,
               Z.of_nat (length (rate_limits g !!! c))
               ≤ Z.max (RATE_LIMIT_MAX_REQUESTS cfg) 0) →
            (∀ (c : string) (ts : Z), ts ∈ rate_limits g !!! c → P ts) →
            (∀ c : Call, c ∈ l → P (now (call_env c))) →
            (∀ c : string,
               Z.of_nat (length (rate_limits (serve json_loads cfg l g) !!! c))
               ≤ Z.max (RATE_LIMIT_MAX_REQUESTS cfg) 0)
            ∧ (∀ (c : string) (ts : Z),
                 ts ∈ rate_limits (serve json_loads cfg l g) !!! c → P ts)).
  { intros P l. induction l as [|c0 l IH]; intros g Hb Hp Hl; simpl; [done|].
    apply IH.
    - rewrite proxy_route_rate_limits. destruct (_ && _); [|done].
      by apply rate_limit_check_bounded.
    - rewrite proxy_route_rate_limits. destruct (_ && _); [|done].
      apply rate_limit_check_elems; [done|]. apply Hl, list_elem_of_here.
    - intros c Hc. apply Hl. by apply list_elem_of_further. }
  destruct (Hgen (λ ts, ∃ c : Call, c ∈ calls ∧ now (call_env c) = ts) calls
              (mkGateway ∅ [])) as [H1 H2].
  - intros c. simpl. rewrite lookup_total_empty. simpl. lia.
  - intros c ts. simpl. rewrite lookup_total_empty. intros H.
    by apply elem_of_nil in H.
  - intros c Hc. by exists c.
  - split; [apply H1|apply H2].
Qed.

Lemma rate_limit_accept_result (cfg : ConfigT) (env : Env) (req : Request)
    (f : SimpleCache → SimpleCache * res view_rv) (g : Gateway)
    (rl : gmap string (list Z)) (c : Z) (c' : SimpleCache) (rv : view_rv) :
  RATE_LIMIT_ENABLED cfg = true →
  rate_limit_check cfg (rate_limits g) (client_id req) (now env) = (rl, Ok (RlAccept c)) →
  f (cache g) = (c', Ok rv) →
  rate_limit cfg env req f g
  = (mkGateway rl c',
     Ok (RvResponse
           (rate_limit_headers cfg (now env) c
              (match rv with RvResponse o => o | RvTuple2 o _ => o end)))).
Proof.
  intros Hen Hc Hf. unfold rate_limit. by rewrite Hen, Hc, Hf.
Qed.

(** The header tells the truth about the store: on a response to an
    accepted request, [X-RateLimit-Remaining] is [N] less the size of
    the client's window as it is stored after the request, and lies
    between 0 and [N - 1]. *)
Theorem remaining_header_matches_store (json_loads : bytes → res json)
    (cfg : ConfigT) (env : Env) (req : Request) (service path : string)
    (g g' : Gateway) (v : view_rv) :
  RATE_LIMIT_ENABLED cfg = true → authenticated cfg req = true →
  allowed cfg (rate_limits g) (client_id req) (now env) = true →
  proxy_route json_loads cfg env req service path g = (g', Ok v) →
  let k := RATE_LIMIT_MAX_REQUESTS cfg
           - Z.of_nat (length (rate_limits g' !!! client_id req)) in
  headers_get (headers (make_response v)) "X-RateLimit-Remaining" = Some (str k)
  ∧ 0 ≤ k < RATE_LIMIT_MAX_REQUESTS cfg.
Proof.
  intros Hen Hauth Hal Hr. cbv zeta.
  assert (Hg' : rate_limits g'
                = (rate_limit_check cfg (rate_limits g) (client_id req) (now env)).1).
  { change g' with (g', @Ok view_rv v).1. rewrite <- Hr, proxy_route_rate_limits.
    by rewrite Hauth, Hen. }
  unfold allowed in Hal.
  destruct (rate_limit_check cfg (rate_limits g) (client_id req) (now env))
    as [rl [[ra|c]|e]] eqn:Hc; simpl in Hal; try done.
  pose proof Hc as Hc'. apply rate_limit_check_accept_inv in Hc' as (Hlt & -> & ->).
  simpl in Hg'. rewrite Hg', lookup_total_insert_eq, length_app.
  change (length [now env]) with 1%nat.
  unfold proxy_route in Hr. rewrite require_api_key_pass in Hr by done.
  destruct (api_gateway json_loads cfg env req service path (cache g))
    as [c' [rv|e]] eqn:Hf.
  - rewrite (rate_limit_accept_result cfg env req _ g _ _ c' rv Hen Hc Hf) in Hr.
    injection Hr as _ <-. split; [|lia]. unfold make_response.
    destruct (rate_limit_headers_get cfg (now env)
                (Z.of_nat (length (kept cfg (rate_limits g) (client_id req) (now env))))
                (match rv with RvResponse o => o | RvTuple2 o _ => o end))
      as (_ & -> & _).
    do 2 f_equal. lia.
  - unfold rate_limit in Hr. rewrite Hen, Hc, Hf in Hr. simpl in Hr. done.
Qed.

Lemma remaining_header_matches_store_witness :
  let env := env_up [Byte.x7b; Byte.x7d] 200 [("Content-Type", "application/json")] in
  let r := proxy_route sample_loads Config env (sample_request "GET" "test-api-key")
             "product_service" "products" (mkGateway ∅ []) in
  ∃ v, r.2 = Ok v
       ∧ headers_get (headers (make_response v)) "X-RateLimit-Remaining"
         = Some (str (100 - Z.of_nat (length (rate_limits r.1 !!! "test-api-key")))).
Proof.
  intros env r.
  destruct r as [g' [v|e]] eqn:E; [|vm_compute in E; discriminate E].
  exists v. split; [reflexivity|].
  refine (proj1 (remaining_header_matches_store sample_loads Config env
                   (sample_request "GET" "test-api-key") "product_service" "products"
                   (mkGateway ∅ []) g' v eq_refl eq_refl _ E)).
  vm_compute. reflexivity.
Defined.

(** Requests without the right key leave no trace: whatever number of
    them the gateway serves, its rate-limit store and its cache are as
    before. *)
Theorem unauthenticated_requests_leave_no_trace (json_loads : bytes → res json)
    (cfg : ConfigT) (calls : list Call) (g : Gateway) :
  Forall (λ c, authenticated cfg (call_req c) = false) calls →
  serve json_loads cfg calls g = g.
Proof.
  induction 1 as [|c l Hc _ IH]; simpl; [done|].
  unfold proxy_route. by rewrite require_api_key_fail.
Qed.

Lemma unauthenticated_requests_leave_no_trace_witness :
  let bad := mkCall env_down (sample_request "GET" "wrong-key") "user_service" "users" in
  serve sample_loads Config [bad; bad; bad] (mkGateway ∅ []) = mkGateway ∅ [].
Proof.
  intros bad. apply unauthenticated_requests_leave_no_trace.
  repeat constructor.
Defined.

(** * The text that is hashed *)














(** * The dispatcher and the cache *)

Lemma forward_request_response (cfg : ConfigT) (env : Env) (req : Request)
    (service path method : string) (hs : list string) (payload : option json)
    (params : list (string * string)) (r : Response) :
  forward_request cfg env req service path method hs payload params
  = Ok (RvResponse r) →
  ∃ u response,
    get_service_url cfg (draw env) service = Some u ∧ u ≠ ""
    ∧ requests_request env (upstream_request req u path method hs payload params)
      = Ok response
    ∧ r = gateway_response response.
Proof.
  unfold forward_request, service_not_found, service_unavailable.
  destruct (get_service_url cfg (draw env) service) as [u|]; [|done].
  destruct (String.eqb u "") eqn:E; [done|].
  destruct (requests_request env _) as [response|e] eqn:Hr.
  - intros [= <-]. exists u, response. split; [done|]. split; [|done].
    intros ->. by rewrite String.eqb_refl in E.
  - by destruct e.
Qed.

Lemma dict_get_set {V : Type} (d : list (string * V)) (k : string) (v : V) :
  dict_get (dict_set d k v) k = Some v.
Proof.
  induction d as [|[k' v'] d IH]; simpl.
  - by rewrite String.eqb_refl.
  - destruct (String.eqb k' k) eqn:E; simpl.
    + by rewrite String.eqb_refl.
    + by rewrite E.
Qed.

Lemma cache_get_set (t t' : Z) (d : SimpleCache) (k : string) (v : json) (timeout : Z) :
  0 < timeout → t' < t + timeout →
  cache_get t' (cache_set t d k v timeout) k = Some v.
Proof.
  intros Hto Ht. unfold cache_get, cache_set. rewrite dict_get_set.
  destruct (Z.ltb_spec 0 timeout); [|lia].
  destruct (Z.ltb_spec t' (t + timeout)); [|lia]. by rewrite orb_true_r.
Qed.

Lemma api_gateway_get_response (json_loads : bytes → res json) (cfg : ConfigT)
    (env : Env) (req : Request) (service path : string) (c c' : SimpleCache) :
  (api_gateway_get json_loads cfg env req service path c).2
  = (api_gateway_get json_loads cfg env req service path c').2.
Proof.
  unfold api_gateway_get.
  destruct (forward_request cfg env req service path "GET" _ None (args req))
    as [[r|r s]|e]; try done.
  - destruct (CACHE_ENABLED cfg); [|done]. destruct (status_code r =? 200); [|done].
    unfold cache_store. by destruct (loads_data json_loads r) as [j|[]].
  - by destruct (CACHE_ENABLED cfg).
Qed.

(** The cache is written by nothing but a GET whose upstream call
    answered 200 with a body that [json.loads] accepts; what is written
    then is that value under the request's key, with the configured
    lifetime.  Other methods, other statuses, error envelopes, cache hits
    and bodies that do not parse leave the cache as it is. *)
Theorem cache_written_only_by_successful_get (json_loads : bytes → res json)
    (cfg : ConfigT) (env : Env) (req : Request) (service path : string)
    (c : SimpleCache) :
  (api_gateway json_loads cfg env req service path c).1 ≠ c →
  req_method req = "GET" ∧ CACHE_ENABLED cfg = true
  ∧ ∃ u response j,
      get_service_url cfg (draw env) service = Some u
      ∧ requests_request env
          (upstream_request req u path "GET" ["Authorization"; "Accept"; "Accept-Language"]
             None (args req)) = Ok response
      ∧ up_status_code response = 200
      ∧ json_loads (content response) = Ok j
      ∧ (api_gateway json_loads cfg env req service path c).1
        = cache_set (now env) c (get_cache_key req service path (query_string req) None)
            j (CACHE_TIMEOUT cfg).
Proof.
  assert (Hget : (api_gateway_get json_loads cfg env req service path c).1 ≠ c →
            CACHE_ENABLED cfg = true
            ∧ ∃ u response j,
                get_service_url cfg (draw env) service = Some u
                ∧ requests_request env
                    (upstream_request req u path "GET"
                       ["Authorization"; "Accept"; "Accept-Language"] None (args req))
                  = Ok response
                ∧ up_status_code response = 200
                ∧ json_loads (content response) = Ok j
                ∧ (api_gateway_get json_loads cfg env req service path c).1
                  = cache_set (now env) c
                      (get_cache_key req service path (query_string req) None)
                      j (CACHE_TIMEOUT cfg)).
  { unfold api_gateway_get.
    destruct (forward_request cfg env req service path "GET" _ None (args req))
      as [[r|r s]|e] eqn:Hf; try done.
    - destruct (CACHE_ENABLED cfg); [|done].
      destruct (status_code r =? 200) eqn:Hs; [|done].
      apply forward_request_response in Hf as (u & response & Hu & _ & Hr & ->).
      destruct (gateway_response_status response) as [Hst Hd].
      unfold cache_store, loads_data. rewrite Hd.
      destruct (json_loads (content response)) as [j|e] eqn:Hj.
      + intros _. split; [done|]. exists u, response, j.
        rewrite Hst in Hs. apply Z.eqb_eq in Hs. done.
      + by destruct e.
    - by destruct (CACHE_ENABLED cfg). }
  unfold api_gateway.
  destruct (services_get (SERVICES cfg) service) as [urls|]; [|done].
  destruct (String.eqb (req_method req) "GET") eqn:Hm; simpl.
  - apply String.eqb_eq in Hm.
    destruct (CACHE_ENABLED cfg) eqn:Hce; simpl.
    + destruct (cache_get (now env) c _) as [j|].
      * destruct (truthy j); [done|]. intros H. split; [done|]. by apply Hget.
      * intros H. split; [done|]. by apply Hget.
    + intros H. by destruct (Hget H).
  - by repeat destruct (String.eqb (req_method req) _).
Qed.

Lemma cache_written_only_by_successful_get_witness :
  let env := env_up [Byte.x7b; Byte.x7d] 200 [("Content-Type", "application/json")] in
  req_method (sample_request "GET" "test-api-key") = "GET"
  ∧ ∃ j, sample_loads [Byte.x7b; Byte.x7d] = Ok j
         ∧ (api_gateway sample_loads Config env (sample_request "GET" "test-api-key")
              "product_service" "products" []).1
           = cache_set 1000 []
               (get_cache_key (sample_request "GET" "test-api-key")
                  "product_service" "products" "" None) j 300.
Proof.
  intros env.
  destruct (cache_written_only_by_successful_get sample_loads Config env
              (sample_request "GET" "test-api-key") "product_service" "products" [])
    as (Hm & _ & u & response & j & Hu & Hr & _ & Hj & Hc).
  - vm_compute. discriminate.
  - split; [exact Hm|]. exists j. injection Hr as <-. split; [exact Hj|exact Hc].
Defined.

(** A lookup that finds nothing, or finds a value that Python counts as
    false (null, false, 0, an empty string, list or object), is a miss:
    the request is answered exactly as it would be with an empty cache. *)
Theorem falsy_cache_entry_is_a_miss (json_loads : bytes → res json) (cfg : ConfigT)
    (env : Env) (req : Request) (service path : string) (c : SimpleCache) :
  match cache_get (now env) c (get_cache_key req service path (query_string req) None) with
  | Some j => truthy j = false
  | None => True
  end →
  (api_gateway json_loads cfg env req service path c).2
  = (api_gateway json_loads cfg env req service path []).2.
Proof.
  intros Hmiss. unfold api_gateway.
  destruct (services_get (SERVICES cfg) service) as [urls|]; [|done].
  replace (cache_get (now env) []
             (get_cache_key req service path (query_string req) None))
    with (@None json) by reflexivity.
  destruct (String.eqb (req_method req) "GET") eqn:Hm; simpl.
  - destruct (CACHE_ENABLED cfg); simpl; [|apply api_gateway_get_response].
    destruct (cache_get (now env) c _) as [j|]; [|apply api_gateway_get_response].
    rewrite Hmiss. apply api_gateway_get_response.
  - by repeat destruct (String.eqb (req_method req) _).
Qed.

Lemma falsy_cache_entry_is_a_miss_witness :
  let req := sample_request "GET" "test-api-key" in
  let stored := [(get_cache_key req "product_service" "products" "" None,
                  (1300, JDict []))] in
  (api_gateway sample_loads Config env_down req "product_service" "products" stored).2
  = (api_gateway sample_loads Config env_down req "product_service" "products" []).2.
Proof.
  intros req stored. apply falsy_cache_entry_is_a_miss.
  vm_compute. reflexivity.
Defined.

Lemma api_gateway_miss (json_loads : bytes → res json) (cfg : ConfigT)
    (env : Env) (req : Request) (service path : string) (c : SimpleCache) :
  req_method req = "GET" → is_Some (services_get (SERVICES cfg) service) →
  match cache_get (now env) c (get_cache_key req service path (query_string req) None) with
  | Some j => truthy j = false
  | None => True
  end →
  api_gateway json_loads cfg env req service path c
  = api_gateway_get json_loads cfg env req service path c.
Proof.
  intros Hm [urls Hs] Hmiss. unfold api_gateway. rewrite Hs, Hm. simpl.
  destruct (CACHE_ENABLED cfg); [|done].
  destruct (cache_get (now env) c _) as [j|]; [|done]. by rewrite Hmiss.
Qed.

(** A GET that misses the cache and gets a 200 with a JSON body from
    upstream returns that response and stores the parsed body; any GET
    for the same service, path and query string made before the entry's
    lifetime is over is then answered with the stored body, whatever the
    backend would say. *)
Theorem second_get_served_from_cache (json_loads : bytes → res json) (cfg : ConfigT)
    (env1 env2 : Env) (req1 req2 : Request) (service path u : string)
    (c : SimpleCache) (response : UpstreamResponse) (j : json) :
  req_method req1 = "GET" → req_method req2 = "GET" →
  query_string req2 = query_string req1 →
  CACHE_ENABLED cfg = true → 0 < CACHE_TIMEOUT cfg →
  match cache_get (now env1) c
          (get_cache_key req1 service path (query_string req1) None) with
  | Some j0 => truthy j0 = false
  | None => True
  end →
  get_service_url cfg (draw env1) service = Some u → u ≠ "" →
  requests_request env1
    (upstream_request req1 u path "GET" ["Authorization"; "Accept"; "Accept-Language"]
       None (args req1)) = Ok response →
  up_status_code response = 200 →
  json_loads (content response) = Ok j → truthy j = true →
  now env2 < now env1 + CACHE_TIMEOUT cfg →
  (api_gateway json_loads cfg env1 req1 service path c).2
  = Ok (RvResponse (gateway_response response))
  ∧ api_gateway json_loads cfg env2 req2 service path
      (api_gateway json_loads cfg env1 req1 service path c).1
    = ((api_gateway json_loads cfg env1 req1 service path c).1,
       Ok (RvResponse (jsonify j))).
Proof.
  intros Hm1 Hm2 Hq Hce Hto Hmiss Hu Hne Hr Hs Hj Htr Ht.
  assert (Hreg : is_Some (services_get (SERVICES cfg) service)).
  { unfold get_service_url in Hu. by destruct (services_get (SERVICES cfg) service). }
  assert (H1 : api_gateway json_loads cfg env1 req1 service path c
               = (cache_set (now env1) c
                    (get_cache_key req1 service path (query_string req1) None)
                    j (CACHE_TIMEOUT cfg),
                  Ok (RvResponse (gateway_response response)))).
  { rewrite api_gateway_miss by done. unfold api_gateway_get, forward_request.
    rewrite Hu. destruct (String.eqb u "") eqn:E; [by apply String.eqb_eq in E|].
    rewrite Hr, Hce. destruct (gateway_response_status response) as [Hst Hd].
    rewrite Hst, Hs. simpl. unfold cache_store, loads_data. by rewrite Hd, Hj. }
  rewrite H1. simpl. split; [done|].
  destruct Hreg as [urls Hreg]. unfold api_gateway. rewrite Hreg, Hm2, Hce. simpl.
  assert (Hk : get_cache_key req2 service path (query_string req2) None
               = get_cache_key req1 service path (query_string req1) None)
    by (unfold get_cache_key, cache_key_parts; by rewrite Hq).
  rewrite Hk, cache_get_set by done. by rewrite Htr.
Qed.

Lemma second_get_served_from_cache_witness :
  let up := env_up [Byte.x5b; Byte.x31; Byte.x5d] 200 [("Content-Type", "application/json")] in
  let req := sample_request "GET" "test-api-key" in
  let c1 := (api_gateway sample_loads_list Config up req "product_service" "products" []).1 in
  api_gateway sample_loads_list Config env_down req "product_service" "products" c1
  = (c1, Ok (RvResponse (jsonify (JList [JInt 1])))).
Proof.
  intros up req c1.
  refine (proj2 (second_get_served_from_cache sample_loads_list Config up env_down
                   req req "product_service" "products" "http://localhost:8011" []
                   (mkUpstreamResponse [Byte.x5b; Byte.x31; Byte.x5d] 200
                      [("Content-Type", "application/json")])
                   (JList [JInt 1]) _ _ _ _ _ _ _ _ _ _ _ _ _));
    first [reflexivity | exact I | discriminate].
Defined.

(** * The forwarder *)


Lemma lstrip_slash_no_slash (s : string) :
  ∀ r : string, lstrip_slash s ≠ String "/"%char r.
Proof.
  induction s as [|c s IH]; intros r; simpl; [done|].
  destruct (Ascii.eqb c "/"%char) eqn:E; [apply IH|].
  intros [= -> _]. by rewrite Ascii.eqb_refl in E.
Qed.

(** The upstream address is the backend's, one slash, and the path
    without its leading slashes: a path reaches the same address with or
    without a slash in front, and the part after the joining slash never
    begins with a slash. *)
Theorem upstream_url_ignores_leading_slashes (req : Request)
    (service_url path method : string) (hs : list string) (payload : option json)
    (params : list (string * string)) :
  up_url (upstream_request req service_url (String "/"%char path) method hs payload params)
  = up_url (upstream_request req service_url path method hs payload params)
  ∧ up_url (upstream_request req service_url path method hs payload params)
    = service_url +:+ "/" +:+ lstrip_slash path
  ∧ lstrip_slash (lstrip_slash path) = lstrip_slash path
  ∧ ∀ r : string, lstrip_slash path ≠ String "/"%char r.
Proof.
  split; [done|]. split; [done|]. split; [|apply lstrip_slash_no_slash].
  pose proof (lstrip_slash_no_slash path) as H.
  destruct (lstrip_slash path) as [|c r] eqn:E; [done|]. simpl.
  destruct (Ascii.eqb c "/"%char) eqn:Ec; [|done].
  apply Ascii.eqb_eq in Ec. subst c. by destruct (H r).
Qed.

(** * The admin routes *)

Lemma current_rate_limits_lookup (cfg : ConfigT) (clock : string → Z)
    (rl : gmap string (list Z)) (cid : string) :
  current_rate_limits cfg clock rl !! cid =
  match kept cfg rl cid (clock cid) with
  | [] => None
  | l =>
      Some {| request_count := Z.of_nat (length l);
              remaining := Z.max 0 (RATE_LIMIT_MAX_REQUESTS cfg - Z.of_nat (length l));
              reset := clock cid - RATE_LIMIT_WINDOW cfg + RATE_LIMIT_WINDOW cfg |}
  end.
Proof.
  unfold current_rate_limits, kept. rewrite map_lookup_imap, lookup_total_alt.
  destruct (rl !! cid) as [ts|]; simpl; [|done].
  by destruct (purge (clock cid - RATE_LIMIT_WINDOW cfg) ts).
Qed.

(** The report of [list_rate_limits] agrees with the limiter.  A client
    is listed exactly when it has a timestamp inside the window at the
    time its entry is computed; its entry counts those timestamps, gives
    [max(0, N - count)] as remaining and the current time as reset; and
    a request of that client at that time would be accepted exactly when
    the client is not listed or its remaining is positive. *)
Theorem rate_limit_report_agrees_with_limiter (cfg : ConfigT) (clock : string → Z)
    (req : Request) (g : Gateway) (result : gmap string RateInfo) (w m : Z) :
  0 < RATE_LIMIT_MAX_REQUESTS cfg →
  list_rate_limits cfg clock req g = RlvReport result w m →
  w = RATE_LIMIT_WINDOW cfg ∧ m = RATE_LIMIT_MAX_REQUESTS cfg
  ∧ authenticated cfg req = true
  ∧ ∀ cid : string,
      let inside := kept cfg (rate_limits g) cid (clock cid) in
      (result !! cid = None ↔ inside = [])
      ∧ (∀ info, result !! cid = Some info →
           request_count info = Z.of_nat (length inside)
           ∧ 1 ≤ request_count info
           ∧ remaining info = Z.max 0 (RATE_LIMIT_MAX_REQUESTS cfg - request_count info)
           ∧ reset info = clock cid)
      ∧ (allowed cfg (rate_limits g) cid (clock cid) = true
         ↔ match result !! cid with
           | Some info => 0 < remaining info
           | None => True
           end).
Proof.
  intros HN. unfold list_rate_limits, authenticated.
  destruct (headers_get (req_headers req) "X-API-Key") as [k|]; [|done].
  destruct (String.eqb k ""); [done|]. simpl.
  destruct (String.eqb k (API_KEY cfg)); [|done]. simpl.
  destruct (RATE_LIMIT_ENABLED cfg); [|done]. simpl.
  intros [= <- <- <-]. split; [done|]. split; [done|]. split; [done|].
  intros cid. rewrite current_rate_limits_lookup.
  set (inside := kept cfg (rate_limits g) cid (clock cid)).
  assert (Hal : allowed cfg (rate_limits g) cid (clock cid) = true
                ↔ Z.of_nat (length inside) < RATE_LIMIT_MAX_REQUESTS cfg).
  { unfold allowed. rewrite rate_limit_check_unfold. cbv zeta. fold inside.
    destruct (Z.leb_spec (RATE_LIMIT_MAX_REQUESTS cfg) (Z.of_nat (length inside)));
      simpl.
    - destruct (py_min inside); simpl; split; (done || lia).
    - split; [lia|done]. }
  destruct inside as [|x l] eqn:E.
  - split; [done|]. split; [done|]. rewrite Hal. simpl. split; [done|lia].
  - split; [done|]. split.
    + intros info [= <-]. cbn [request_count remaining reset]. simpl length.
      repeat split; lia.
    + rewrite Hal. cbn [remaining]. lia.
Qed.

Lemma rate_limit_report_agrees_with_limiter_witness :
  let g := mkGateway {[ "test-api-key" := repeat 990 100 ]} [] in
  allowed Config (rate_limits g) "test-api-key" 1000 = true
  ↔ match current_rate_limits Config (λ _, 1000) (rate_limits g) !! "test-api-key" with
    | Some info => 0 < remaining info
    | None => True
    end.
Proof.
  intros g.
  destruct (rate_limit_report_agrees_with_limiter Config (λ _, 1000)
              (sample_request "GET" "test-api-key") g
              (current_rate_limits Config (λ _, 1000) (rate_limits g)) 60 100)
    as (_ & _ & _ & H).
  - simpl. lia.
  - reflexivity.
  - exact (proj2 (proj2 (H "test-api-key"))).
Defined.

(** Clearing the cache needs the key and touches nothing else: without
    the key the answer is the 401 and the gateway is unchanged; with the
    key and caching on, the cache is emptied, so that every lookup
    misses, and the rate-limit windows stay as they are; with caching off
    nothing changes. *)
Theorem clear_cache_route_effect (cfg : ConfigT) (req : Request) (g : Gateway) :
  (authenticated cfg req = false →
     clear_cache_route cfg req g = (g, Ok unauthorized))
  ∧ (authenticated cfg req = true → CACHE_ENABLED cfg = true →
     rate_limits (clear_cache_route cfg req g).1 = rate_limits g
     ∧ (∀ (t : Z) (k : string), cache_get t (cache (clear_cache_route cfg req g).1) k = None)
     ∧ ∃ v, (clear_cache_route cfg req g).2 = Ok v ∧ status_code (make_response v) = 200)
  ∧ (authenticated cfg req = true → CACHE_ENABLED cfg = false →
     (clear_cache_route cfg req g).1 = g).
Proof.
  unfold clear_cache_route. split; [|split].
  - intros H. by rewrite require_api_key_fail.
  - intros H Hce. rewrite require_api_key_pass by done. unfold clear_cache.
    rewrite Hce. simpl. split; [done|]. split; [done|]. by eexists.
  - intros H Hce. rewrite require_api_key_pass by done. unfold clear_cache.
    by rewrite Hce.
Qed.

(** * The shape of the key *)

Lemma hex_digit_is_lower_hex (d : Z) :
  0 ≤ d < 16 → is_lower_hex (MD5.hex_digit d) = true.
Proof.
  intros Hd.
  assert (H : d = 0 ∨ d = 1 ∨ d = 2 ∨ d = 3 ∨ d = 4 ∨ d = 5 ∨ d = 6 ∨ d = 7 ∨ d = 8
              ∨ d = 9 ∨ d = 10 ∨ d = 11 ∨ d = 12 ∨ d = 13 ∨ d = 14 ∨ d = 15) by lia.
  repeat (destruct H as [->|H]; [reflexivity|]). by subst d.
Qed.

Lemma le_bytes_spec (n : nat) (x : Z) :
  length (MD5.le_bytes n x) = n ∧ Forall (λ b, 0 ≤ b < 256) (MD5.le_bytes n x).
Proof.
  revert x. induction n as [|n IH]; intros x; simpl; [by split|].
  destruct (IH (x / 256)) as [Hl Hf]. split; [by rewrite Hl|].
  constructor; [|done]. apply Z.mod_pos_bound. lia.
Qed.

Lemma hex_spec (bs : list Z) :
  Forall (λ b, 0 ≤ b < 256) bs →
  String.length (MD5.hex bs) = (2 * length bs)%nat
  ∧ forallb is_lower_hex (list_ascii_of_string (MD5.hex bs)) = true.
Proof.
  induction 1 as [|b bs Hb _ IH]; [done|]. destruct IH as [Hl Hf].
  cbn [MD5.hex String.length list_ascii_of_string forallb length].
  split; [rewrite Hl; lia|].
  rewrite Hf, !hex_digit_is_lower_hex; [done| |].
  - apply Z.mod_pos_bound. lia.
  - split; [apply Z.div_pos; lia|apply Z.div_lt_upper_bound; lia].
Qed.

(** Every cache key is ["apigw:"] followed by thirty-two lowercase
    hexadecimal digits, whatever the request. *)
Theorem cache_key_format (req : Request) (service path query : string)
    (hs : option (list string)) :
  ∃ h : string,
    get_cache_key req service path query hs = "apigw:" +:+ h
    ∧ String.length h = 32%nat
    ∧ forallb is_lower_hex (list_ascii_of_string h) = true.
Proof.
  unfold get_cache_key. eexists. split; [reflexivity|].
  unfold MD5.hexdigest, MD5.digest.
  destruct (MD5.blocks _ _ _) as [[[A B] C] D].
  destruct (le_bytes_spec 4 A) as [HA1 HA2]. destruct (le_bytes_spec 4 B) as [HB1 HB2].
  destruct (le_bytes_spec 4 C) as [HC1 HC2]. destruct (le_bytes_spec 4 D) as [HD1 HD2].
  destruct (hex_spec (MD5.le_bytes 4 A ++ MD5.le_bytes 4 B ++ MD5.le_bytes 4 C
                      ++ MD5.le_bytes 4 D)) as [Hl Hf].
  { repeat (apply Forall_app; split); done. }
  split; [|done]. rewrite Hl, !length_app, HA1, HB1, HC1, HD1. done.
Qed.
